(** * pdf_ingestion: a shallow embedding and its checked properties

    The program lists the [*.pdf] entries of a directory, extracts the text
    of every page of the first [limit] of them and upserts one row per page
    into the SQLite table [pdf_pages].

    Three collaborators are outside the program and appear here only through
    what the program observes of them:
    - the file system: a tree of [node]s; a regular file is abstracted to
      what [PdfReader] makes of its bytes;
    - PyPDF2: [PdfReader] either raises or gives the pages, and
      [page.extract_text()] either raises or returns a value;
    - sqlite3: a connection with a durable and a working copy of the table,
      where any statement may fail as decided by an oracle [sql_op -> bool].

    Python [str] is a sequence of code points ([list N]); Python [int] is
    [Z]. *)

From Stdlib Require Import String Ascii.
From Stdlib Require Import List ZArith NArith Bool Lia.
From Stdlib Require Import Sorting.Sorted Sorting.Permutation.
Import ListNotations.

Set Implicit Arguments.
Set Warnings "-register-all".

(* ===================================================================== *)
(** ** Python strings                                                     *)
(* ===================================================================== *)

Definition str := list N.

Definition str_eq_dec : forall a b : str, {a = b} + {a <> b} :=
  list_eq_dec N.eq_dec.

Definition str_eqb (a b : str) : bool :=
  if str_eq_dec a b then true else false.

(** A string literal of the source, as code points (ASCII literals only). *)
Definition lit (s : string) : str :=
  map N_of_ascii (list_ascii_of_string s).

(** [a < b] on [str]: lexicographic on code points, a proper prefix first. *)
Fixpoint str_ltb (a b : str) : bool :=
  match a, b with
  | _, [] => false
  | [], _ :: _ => true
  | x :: a', y :: b' =>
      if (x <? y)%N then true
      else if (x =? y)%N then str_ltb a' b'
      else false
  end.

(** [str.isspace] on one code point: the white-space table of CPython. *)
Definition isspace (c : N) : bool :=
  ((9 <=? c) && (c <=? 13) || (28 <=? c) && (c <=? 32)
   || (c =? 133) || (c =? 160) || (c =? 5760)
   || (8192 <=? c) && (c <=? 8202)
   || (c =? 8232) || (c =? 8233) || (c =? 8239) || (c =? 8287)
   || (c =? 12288))%N.

Fixpoint lstrip (s : str) : str :=
  match s with
  | [] => []
  | c :: s' => if isspace c then lstrip s' else s
  end.

Definition rstrip (s : str) : str := rev (lstrip (rev s)).

(** [s.strip()]: the left index moves right over white space, then the right
    index moves left over white space, no further than the left one. *)
Definition strip (s : str) : str := rstrip (lstrip s).

(** [s.endswith(suffix)]. *)
Definition endswith (s suffix : str) : bool :=
  (length suffix <=? length s)%nat
  && str_eqb (skipn (length s - length suffix) s) suffix.

(** [l[:stop]] for an [int] stop: a negative stop counts from the end. *)
Definition slice_to (A : Type) (l : list A) (stop : Z) : list A :=
  if (stop <? 0)%Z
  then firstn (Z.to_nat (Z.max 0 (Z.of_nat (length l) + stop))) l
  else firstn (Z.to_nat stop) l.

(** [enumerate(l, start)]. *)
Fixpoint enumerate (A : Type) (start : Z) (l : list A) : list (Z * A) :=
  match l with
  | [] => []
  | x :: l' => (start, x) :: enumerate (start + 1) l'
  end.

(* ===================================================================== *)
(** ** Exceptions and results                                             *)
(* ===================================================================== *)

Inductive exn : Type :=
| FileNotFoundError      (* raised by ingest_pdfs: no PDF file listed *)
| NotADirectoryError     (* raised by main: invalid source directory *)
| PdfReadError           (* whatever PdfReader or extract_text raises; it
                            propagates unchanged and its class (a PyPDF2
                            error, an OSError of open(), ...) is not told
                            apart here *)
| SqliteError.           (* anything sqlite3 raises *)

Inductive result (A : Type) : Type :=
| Ok (a : A)
| Raise (e : exn).

Arguments Ok {A} a.
Arguments Raise {A} e.

(** Exit status of the interpreter: an uncaught exception gives 1. *)
Definition exit_status (A : Type) (r : result A) : Z :=
  match r with Ok _ => 0%Z | Raise _ => 1%Z end.

(* ===================================================================== *)
(** ** The file system and the PDF engine                                 *)
(* ===================================================================== *)

(** What [page.extract_text()] does on one page. *)
Inductive page : Type :=
| ExtractText (v : option str)   (* returns [v]; [None] is Python's None *)
| ExtractRaises.

(** What [PdfReader(path)] does on a regular file. *)
Inductive pdf_source : Type :=
| Unparseable
| Document (pages : list page).

Inductive node : Type :=
| Regular (src : pdf_source)
| Directory (entries : list (str * node)).

(** A [Path] below the source directory: its [name] and what it points to. *)
Definition path := (str * node)%type.

Definition name (p : path) : str := fst p.

(** [Path.exists()] and [Path.is_dir()]; [None] is a path with nothing at it. *)
Definition exists_ (p : option node) : bool :=
  match p with Some _ => true | None => false end.

Definition is_dir (p : option node) : bool :=
  match p with Some (Directory _) => true | _ => false end.

(** [fnmatch(name, "*.pdf")] on a case-sensitive file system. *)
Definition matches_pdf (n : str) : bool := endswith n (lit ".pdf"%string).

(** [source_dir.glob("*.pdf")]: the matching entries directly inside. *)
Definition glob_pdf (source_dir : option node) : list path :=
  match source_dir with
  | Some (Directory entries) => filter (fun e => matches_pdf (name e)) entries
  | _ => []
  end.

(** [p < q] on paths of one directory compares the last part. *)
Definition path_ltb (p q : path) : bool := str_ltb (name p) (name q).

Fixpoint insort (x : path) (l : list path) : list path :=
  match l with
  | [] => [x]
  | y :: l' => if path_ltb y x then y :: insort x l' else x :: l
  end.

(** [sorted(l)]: stable, uses [<] only. *)
Definition sorted (l : list path) : list path := fold_right insort [] l.

(** [PdfReader(str(pdf_path))]; [None] when it raises. *)
Definition PdfReader (f : node) : option (list page) :=
  match f with
  | Regular (Document pages) => Some pages
  | _ => None
  end.

(* ===================================================================== *)
(** ** collect_pdf_files and extract_pages                                *)
(* ===================================================================== *)

Definition collect_pdf_files (source_dir : option node) (limit : Z)
  : list path :=
  let pdf_files := sorted (glob_pdf source_dir) in
  slice_to pdf_files limit.

(** [x or ""] for [x] a string or None. *)
Definition or_empty (v : option str) : str :=
  match v with
  | Some (c :: s) => c :: s
  | _ => []
  end.

(** A drained generator: the values it yielded, and the exception that ended
    it if one did. *)
Definition generated (A : Type) := (list A * option exn)%type.

(** The body of the [for] loop of [extract_pages] over
    [enumerate(reader.pages, start=index)]. *)
Fixpoint extract_loop (ps : list (Z * page)) : generated (Z * str) :=
  match ps with
  | [] => ([], None)
  | (index, p) :: rest =>
      match p with
      | ExtractRaises => ([], Some PdfReadError)
      | ExtractText v =>
          let text := or_empty v in
          let (ys, e) := extract_loop rest in
          ((index, strip text) :: ys, e)
      end
  end.

Definition extract_pages (pdf_path : node) : generated (Z * str) :=
  match PdfReader pdf_path with
  | None => ([], Some PdfReadError)
  | Some pages => extract_loop (enumerate 1 pages)
  end.

(* ===================================================================== *)
(** ** The table and the sqlite3 connection                               *)
(* ===================================================================== *)

(** A row of [pdf_pages]; [content TEXT] is nullable. *)
Record row : Type := mkRow {
  file_name : str;
  page_number : Z;
  content : option str
}.

Definition table := list row.

(** The primary key [(file_name, page_number)]. *)
Definition key := (str * Z)%type.

Definition row_key (r : row) : key := (file_name r, page_number r).

Definition key_eq_dec : forall a b : key, {a = b} + {a <> b}.
Proof. decide equality; [apply Z.eq_dec | apply str_eq_dec]. Defined.

Definition key_eqb (a b : key) : bool :=
  if key_eq_dec a b then true else false.

(** The database file: absent, or present with or without the table. *)
Inductive database : Type :=
| NoDatabase
| Database (pdf_pages : option table).

Definition stored_rows (d : database) : table :=
  match d with
  | Database (Some t) => t
  | _ => []
  end.

(** The rows [WHERE file_name = ? AND page_number = ?]. *)
Definition rows_with (k : key) (t : table) : table :=
  filter (fun r => key_eqb (row_key r) k) t.

(** [SELECT content FROM pdf_pages WHERE file_name = ? AND page_number = ?] *)
Definition select_content (d : database) (k : key) : list (option str) :=
  map content (rows_with k (stored_rows d)).

(** The statements that can fail. *)
Inductive sql_op : Type :=
| OpConnect
| OpCreateTable
| OpBegin               (* the BEGIN that [executemany] issues first *)
| OpInsert (i : nat)    (* the statement run for [records[i]] *)
| OpCommit.

Definition faults := sql_op -> bool.

Definition no_fault : faults := fun _ => false.

Record connection : Type := mkConn {
  durable : option table;       (* what the file holds *)
  working : option table;       (* what this connection sees *)
  in_transaction : bool
}.

(** [sqlite3.connect(db_path)] creates the file when it is absent. *)
Definition connect (d : database) : connection :=
  let t := match d with NoDatabase => None | Database t => t end in
  mkConn t t false.

(** [CREATE TABLE IF NOT EXISTS pdf_pages (...)]. sqlite3 opens no
    transaction for it, so outside a transaction it is durable at once. *)
Definition create_table_if_not_exists (c : connection) : connection :=
  let w := match working c with Some t => Some t | None => Some [] end in
  if in_transaction c then mkConn (durable c) w true
  else mkConn w w false.

(** [INSERT OR REPLACE]: rows in conflict on the primary key are deleted,
    then the new row is added. *)
Definition insert_or_replace (r : row) (t : table) : table :=
  filter (fun x => negb (key_eqb (row_key x) (row_key r))) t ++ [r].

(** Parameter binding of a record [(file_name, page_number, content)]. *)
Definition record := (str * Z * str)%type.

Definition bind_row (rec : record) : row :=
  let '(f, n, c) := rec in mkRow f n (Some c).

(** One step of the [INSERT OR REPLACE] statement for a record. It fails
    when the table does not exist; outside a transaction its effect would
    be durable at once. *)
Definition execute_insert (rec : record) (c : connection)
  : connection * result unit :=
  match working c with
  | None => (c, Raise SqliteError)
  | Some t =>
      let w := Some (insert_or_replace (bind_row rec) t) in
      (if in_transaction c then mkConn (durable c) w true
       else mkConn w w false,
       Ok tt)
  end.

(** Before a data-changing statement sqlite3 issues BEGIN when no
    transaction is open. *)
Definition begin_transaction (env : faults) (c : connection)
  : connection * result unit :=
  if in_transaction c then (c, Ok tt)
  else if env OpBegin then (c, Raise SqliteError)
  else (mkConn (durable c) (working c) true, Ok tt).

(** The loop of [executemany] over the records, from record number [i]
    on. *)
Fixpoint executemany_loop (env : faults) (i : nat) (records : list record)
  (c : connection) : connection * result unit :=
  match records with
  | [] => (c, Ok tt)
  | rec :: rest =>
      if env (OpInsert i) then (c, Raise SqliteError)
      else
        match execute_insert rec c with
        | (c', Ok _) => executemany_loop env (S i) rest c'
        | (c', Raise e) => (c', Raise e)
        end
  end.

(** [connection.executemany(sql, records)]: the transaction is opened
    first, then the statement is run for each record in turn; for an empty
    batch the transaction is open all the same. *)
Definition executemany (env : faults) (records : list record)
  (c : connection) : connection * result unit :=
  match begin_transaction env c with
  | (c', Ok _) => executemany_loop env 0 records c'
  | (c', Raise e) => (c', Raise e)
  end.

Definition commit (c : connection) : connection :=
  mkConn (working c) (working c) false.

Definition rollback (c : connection) : connection :=
  mkConn (durable c) (durable c) false.

(** [with connection: body]: commit when the body ends normally, roll back
    and re-raise when it raises; a failed commit is rolled back too. *)
Definition with_connection (env : faults)
  (body : connection -> connection * result unit) (c : connection)
  : connection * result unit :=
  match body c with
  | (c', Ok _) =>
      if in_transaction c'
      then if env OpCommit then (rollback c', Raise SqliteError)
           else (commit c', Ok tt)
      else (c', Ok tt)
  | (c', Raise e) => (rollback c', Raise e)
  end.

Definition store_body (env : faults) (records : list record)
  (c : connection) : connection * result unit :=
  if env OpCreateTable then (c, Raise SqliteError)
  else executemany env records (create_table_if_not_exists c).

Definition store_pages_in_db (env : faults) (records : list record)
  (d : database) : database * result unit :=
  if env OpConnect then (d, Raise SqliteError)
  else
    let (c, r) := with_connection env (store_body env records) (connect d) in
    (Database (durable c), r).

(* ===================================================================== *)
(** ** The orchestrator                                                   *)
(* ===================================================================== *)

(** The calls the orchestrator makes, in the order it makes them. *)
Inductive call : Type :=
| CallCollect (limit : Z)
| CallExtract (file : str)
| CallStore (records : list record)
| CallPrint.

Record world : Type := mkWorld {
  db : database;
  calls : list call
}.

(** Computations that change the world and may raise. *)
Definition M (A : Type) := world -> world * result A.

Definition ret (A : Type) (a : A) : M A := fun w => (w, Ok a).

Definition raise (A : Type) (e : exn) : M A := fun w => (w, Raise e).

Arguments raise {A} e.

Definition bind (A B : Type) (m : M A) (k : A -> M B) : M B :=
  fun w =>
    match m w with
    | (w', Ok a) => k a w'
    | (w', Raise e) => (w', Raise e)
    end.

Notation "x <- m ;; k" := (bind m (fun x => k))
  (at level 61, m at next level, right associativity).
Notation "m ;;; k" := (bind m (fun _ => k))
  (at level 61, right associativity).

Definition log (c : call) : M unit :=
  fun w => (mkWorld (db w) (calls w ++ [c]), Ok tt).

Definition call_collect (source_dir : option node) (limit : Z)
  : M (list path) :=
  log (CallCollect limit) ;;; ret (collect_pdf_files source_dir limit).

(** Draining [extract_pages(pdf_file)] into [records]. *)
Definition call_extract (pdf_file : path) (records : list record)
  : M (list record) :=
  log (CallExtract (name pdf_file)) ;;;
  let (ys, e) := extract_pages (snd pdf_file) in
  let records' :=
    records ++ map (fun y => (name pdf_file, fst y, snd y)) ys in
  match e with
  | None => ret records'
  | Some x => raise x
  end.

Definition call_store (env : faults) (records : list record) : M unit :=
  log (CallStore records) ;;;
  fun w =>
    let (d, r) := store_pages_in_db env records (db w) in
    (mkWorld d (calls w), r).

Fixpoint ingest_loop (pdf_files : list path) (records : list record)
  : M (list record) :=
  match pdf_files with
  | [] => ret records
  | pdf_file :: rest =>
      records' <- call_extract pdf_file records ;;
      ingest_loop rest records'
  end.

Definition ingest_pdfs (env : faults) (source_dir : option node) (limit : Z)
  : M unit :=
  pdf_files <- call_collect source_dir limit ;;
  match pdf_files with
  | [] => raise FileNotFoundError
  | _ :: _ =>
      records <- ingest_loop pdf_files [] ;;
      call_store env records
  end.

(** [main] after [parse_args] has returned [source_dir] and [limit]. *)
Definition main (env : faults) (source_dir : option node) (limit : Z)
  : M unit :=
  if negb (exists_ source_dir) || negb (is_dir source_dir)
  then raise NotADirectoryError
  else
    ingest_pdfs env source_dir limit ;;;
    log CallPrint.


(* ===================================================================== *)
(** ** Vocabulary of the properties                                       *)
(* ===================================================================== *)

(** [a <= b] on strings, as the sort sees it: not [b < a]. *)
Definition str_le (a b : str) : Prop := str_ltb b a = false.

(** Ascending by name. *)
Definition path_le (p q : path) : Prop := str_le (name p) (name q).

(** A page whose text can be extracted, and a file that is a valid PDF:
    [PdfReader] accepts it and every page can be extracted. *)
Definition page_ok (p : page) : bool :=
  match p with ExtractText _ => true | ExtractRaises => false end.

Definition valid_pdf (f : node) : bool :=
  match PdfReader f with
  | Some pages => forallb page_ok pages
  | None => false
  end.

(** The content [extract_pages] yields for a page. *)
Definition page_content (p : page) : str :=
  match p with
  | ExtractText v => strip (or_empty v)
  | ExtractRaises => []
  end.

(** The pairs a generator of [extract_pages] yields, tagged with the name of
    the file, as [ingest_pdfs] appends them. *)
Definition tagged (pdf_file : path) : list record :=
  map (fun y => (name pdf_file, fst y, snd y))
      (fst (extract_pages (snd pdf_file))).

(** The statements of one [executemany] over [rows], one after the other. *)
Definition upsert_all (rows : list row) (t : table) : table :=
  fold_left (fun acc r => insert_or_replace r acc) rows t.

Definition has_key (k : key) (rows : list row) : bool :=
  existsb (fun r => key_eqb (row_key r) k) rows.

(** The rows of a batch that no later row of the batch replaces. *)
Fixpoint dedup_last (rows : list row) : list row :=
  match rows with
  | [] => []
  | r :: rest =>
      if has_key (row_key r) rest then dedup_last rest
      else r :: dedup_last rest
  end.

(** The primary-key constraint: no two rows share [(file_name, page_number)]. *)
Definition unique_keys (t : table) : Prop := NoDup (map row_key t).

(** The faults under which [store_pages_in_db] meets no failing statement. *)
Definition fault_free (env : faults) (records : list record) : bool :=
  negb (env OpConnect) && negb (env OpCreateTable) && negb (env OpBegin)
  && forallb (fun i => negb (env (OpInsert i))) (seq 0 (length records))
  && negb (env OpCommit).

(** The calls of a run after the first [n]. *)
Definition new_calls (before after : world) : list call :=
  skipn (length (calls before)) (calls after).

(** A file whose generator ends normally. *)
Definition extract_ok (pdf_file : path) : bool :=
  match snd (extract_pages (snd pdf_file)) with
  | None => true
  | Some _ => false
  end.

(** The files the loop of [ingest_pdfs] reaches: all of them up to and
    including the first whose extraction raises. *)
Fixpoint attempted (pdf_files : list path) : list path :=
  match pdf_files with
  | [] => []
  | f :: rest => f :: (if extract_ok f then attempted rest else [])
  end.

Definition extract_calls (pdf_files : list path) : list call :=
  map (fun f => CallExtract (name f)) pdf_files.

Definition is_store (c : call) : bool :=
  match c with CallStore _ => true | _ => false end.

(** The records of a run over [pdf_files]. *)
Definition records_of (pdf_files : list path) : list record :=
  flat_map tagged pdf_files.

(** The number of pages [PdfReader] finds in a file, 0 when it raises. *)
Definition page_count (f : node) : nat :=
  match PdfReader f with
  | Some pages => length pages
  | None => 0
  end.

Definition is_extract (c : call) : bool :=
  match c with CallExtract _ => true | _ => false end.

(** Strictly ascending by name. *)
Definition path_lt (p q : path) : Prop := str_ltb (name p) (name q) = true.

(* ===================================================================== *)
(** ** Facts about strings                                                *)
(* ===================================================================== *)

Unset Implicit Arguments.

Lemma str_eqb_eq (a b : str) : str_eqb a b = true <-> a = b.
Proof.
  unfold str_eqb. destruct (str_eq_dec a b); split; congruence.
Qed.

Lemma key_eqb_eq (a b : key) : key_eqb a b = true <-> a = b.
Proof.
  unfold key_eqb. destruct (key_eq_dec a b); split; congruence.
Qed.

Lemma key_eqb_refl (a : key) : key_eqb a a = true.
Proof. now apply key_eqb_eq. Qed.

Lemma key_eqb_neq (a b : key) : key_eqb a b = false <-> a <> b.
Proof.
  unfold key_eqb. destruct (key_eq_dec a b); split; congruence.
Qed.

Ltac N_cases :=
  repeat match goal with
    | |- context [(?x <? ?y)%N] => destruct (N.ltb_spec x y)
    | |- context [(?x =? ?y)%N] => destruct (N.eqb_spec x y)
    | H : context [(?x <? ?y)%N] |- _ => destruct (N.ltb_spec x y)
    | H : context [(?x =? ?y)%N] |- _ => destruct (N.eqb_spec x y)
    end.

Lemma str_ltb_irrefl (a : str) : str_ltb a a = false.
Proof.
  induction a as [|x a IH]; simpl; [reflexivity|].
  N_cases; try lia; assumption.
Qed.

Lemma str_ltb_trans (a b c : str) :
  str_ltb a b = true -> str_ltb b c = true -> str_ltb a c = true.
Proof.
  revert b c.
  induction a as [|x a IH]; intros [|y b] [|z c]; simpl;
    try congruence.
  intros Hab Hbc.
  N_cases; subst; try lia; try congruence; eauto.
Qed.

Lemma str_ltb_trichotomy (a b : str) :
  str_ltb a b = true \/ a = b \/ str_ltb b a = true.
Proof.
  revert b.
  induction a as [|x a IH]; intros [|y b]; simpl; auto.
  destruct (IH b) as [H | [H | H]];
    N_cases; subst; try lia; auto.
Qed.

Lemma str_ltb_asym (a b : str) :
  str_ltb a b = true -> str_ltb b a = false.
Proof.
  intros Hab. destruct (str_ltb b a) eqn:Hba; [|reflexivity].
  pose proof (str_ltb_trans _ _ _ Hab Hba) as H.
  rewrite str_ltb_irrefl in H. discriminate.
Qed.

Lemma str_le_trans (a b c : str) : str_le a b -> str_le b c -> str_le a c.
Proof.
  unfold str_le. intros Hab Hbc.
  destruct (str_ltb c a) eqn:Hca; [|reflexivity].
  destruct (str_ltb_trichotomy a b) as [H | [H | H]].
  - rewrite (str_ltb_trans _ _ _ Hca H) in Hbc. discriminate.
  - subst. congruence.
  - congruence.
Qed.

Lemma str_le_antisym (a b : str) : str_le a b -> str_le b a -> a = b.
Proof.
  unfold str_le. intros Hab Hba.
  destruct (str_ltb_trichotomy a b) as [H | [H | H]]; congruence.
Qed.

(** *** strip *)

Lemma lstrip_nonspace (c : N) (s : str) :
  isspace c = false -> lstrip (c :: s) = c :: s.
Proof. intros H. simpl. now rewrite H. Qed.

Lemma lstrip_head (s : str) :
  lstrip s = [] \/ exists c t, lstrip s = c :: t /\ isspace c = false.
Proof.
  induction s as [|c s IH]; simpl; [now left|].
  destruct (isspace c) eqn:Hc; [exact IH|].
  right. now exists c, s.
Qed.

Lemma lstrip_idem (s : str) : lstrip (lstrip s) = lstrip s.
Proof.
  destruct (lstrip_head s) as [H | (c & t & H & Hc)]; rewrite H.
  - reflexivity.
  - now apply lstrip_nonspace.
Qed.

Lemma lstrip_app_nonspace (l : str) (c : N) (m : str) :
  isspace c = false -> lstrip (l ++ c :: m) = lstrip l ++ c :: m.
Proof.
  intros Hc. induction l as [|x l IH]; simpl.
  - now rewrite Hc.
  - destruct (isspace x); [exact IH | reflexivity].
Qed.

Lemma rstrip_nil : rstrip [] = [].
Proof. reflexivity. Qed.

Lemma rstrip_cons_nonspace (c : N) (t : str) :
  isspace c = false -> rstrip (c :: t) = c :: rstrip t.
Proof.
  intros Hc. unfold rstrip. simpl.
  rewrite lstrip_app_nonspace by assumption.
  rewrite rev_app_distr. reflexivity.
Qed.

Lemma rstrip_idem (s : str) : rstrip (rstrip s) = rstrip s.
Proof.
  unfold rstrip. now rewrite rev_involutive, lstrip_idem.
Qed.

(** Trimming is idempotent: a trimmed string is a fixed point of [strip]. *)
Lemma strip_idem (s : str) : strip (strip s) = strip s.
Proof.
  unfold strip.
  destruct (lstrip_head s) as [H | (c & t & H & Hc)]; rewrite H.
  - reflexivity.
  - rewrite (rstrip_cons_nonspace c t Hc).
    rewrite (lstrip_nonspace c _ Hc).
    rewrite (rstrip_cons_nonspace c _ Hc).
    now rewrite rstrip_idem.
Qed.

Lemma lstrip_split (s : str) :
  exists a, s = a ++ lstrip s /\ forallb isspace a = true.
Proof.
  induction s as [|c s (a & Ha & Hsp)]; simpl.
  - now exists [].
  - destruct (isspace c) eqn:Hc.
    + exists (c :: a). simpl. rewrite Hc, Hsp. split; [congruence | reflexivity].
    + now exists [].
Qed.

Lemma forallb_rev (A : Type) (f : A -> bool) (l : list A) :
  forallb f (rev l) = forallb f l.
Proof.
  induction l as [|x l IH]; simpl; [reflexivity|].
  rewrite forallb_app, IH. simpl. rewrite andb_true_r. apply andb_comm.
Qed.

Lemma rstrip_split (s : str) :
  exists b, s = rstrip s ++ b /\ forallb isspace b = true.
Proof.
  unfold rstrip.
  destruct (lstrip_split (rev s)) as (a & Ha & Hsp).
  exists (rev a). split.
  - rewrite <- rev_app_distr, <- Ha. now rewrite rev_involutive.
  - now rewrite forallb_rev.
Qed.

(** [strip] removes a run of white space at each end and nothing else. *)
Lemma strip_split (s : str) :
  exists a b,
    s = a ++ strip s ++ b
    /\ forallb isspace a = true /\ forallb isspace b = true.
Proof.
  destruct (lstrip_split s) as (a & Ha & Hsa).
  destruct (rstrip_split (lstrip s)) as (b & Hb & Hsb).
  exists a, b. unfold strip. now rewrite <- Hb, <- Ha.
Qed.

Lemma endswith_spec (s suffix : str) :
  endswith s suffix = true <-> exists stem, s = stem ++ suffix.
Proof.
  unfold endswith. rewrite andb_true_iff, Nat.leb_le, str_eqb_eq. split.
  - intros [_ H].
    exists (firstn (length s - length suffix) s).
    rewrite <- (firstn_skipn (length s - length suffix) s) at 1.
    f_equal. exact H.
  - intros [stem ->]. rewrite length_app. split; [lia|].
    replace (length stem + length suffix - length suffix)
      with (length stem) by lia.
    now rewrite skipn_app, skipn_all, Nat.sub_diag.
Qed.

(** [*.pdf] matches exactly the names that end in [.pdf]. *)
Lemma matches_pdf_spec (n : str) :
  matches_pdf n = true <-> exists stem, n = stem ++ lit ".pdf"%string.
Proof. apply endswith_spec. Qed.

(* ===================================================================== *)
(** ** Facts about sorting and slicing                                    *)
(* ===================================================================== *)

Lemma path_le_trans (p q r : path) : path_le p q -> path_le q r -> path_le p r.
Proof. unfold path_le. apply str_le_trans. Qed.

Lemma insort_perm (x : path) (l : list path) : Permutation (insort x l) (x :: l).
Proof.
  induction l as [|y l IH]; simpl; [reflexivity|].
  destruct (path_ltb y x); [|reflexivity].
  rewrite IH. apply perm_swap.
Qed.

Lemma sorted_perm (l : list path) : Permutation (sorted l) l.
Proof.
  induction l as [|x l IH]; simpl; [reflexivity|].
  rewrite insort_perm. now constructor.
Qed.

Lemma sorted_length (l : list path) : length (sorted l) = length l.
Proof. apply Permutation_length, sorted_perm. Qed.

Lemma insort_hd (a x : path) (l : list path) :
  path_le a x -> HdRel path_le a l -> HdRel path_le a (insort x l).
Proof.
  intros Hax Hal. destruct l as [|y l]; simpl.
  - now constructor.
  - destruct (path_ltb y x); constructor; [|assumption].
    now inversion Hal.
Qed.

Lemma insort_Sorted (x : path) (l : list path) :
  Sorted path_le l -> Sorted path_le (insort x l).
Proof.
  induction 1 as [|y l Hl IH Hhd]; simpl.
  - repeat constructor.
  - destruct (path_ltb y x) eqn:Hyx.
    + constructor; [exact IH|].
      apply insort_hd; [|exact Hhd].
      unfold path_le, str_le. now apply str_ltb_asym.
    + constructor; [now constructor|].
      constructor. exact Hyx.
Qed.

Lemma sorted_Sorted (l : list path) : Sorted path_le (sorted l).
Proof.
  induction l as [|x l IH]; simpl; [constructor|].
  now apply insort_Sorted.
Qed.

Lemma sorted_StronglySorted (l : list path) : StronglySorted path_le (sorted l).
Proof.
  apply Sorted_StronglySorted; [|apply sorted_Sorted].
  intros p q r. apply path_le_trans.
Qed.

Lemma In_firstn (A : Type) (n : nat) (l : list A) (x : A) :
  In x (firstn n l) -> In x l.
Proof.
  revert l. induction n as [|n IH]; intros [|y l]; simpl; try tauto.
  intros [H | H]; auto.
Qed.

Lemma firstn_StronglySorted (A : Type) (R : A -> A -> Prop) (n : nat)
  (l : list A) :
  StronglySorted R l -> StronglySorted R (firstn n l).
Proof.
  intros H. revert n.
  induction H as [|x l Hl IH Hx]; intros [|n]; simpl; try constructor.
  - apply IH.
  - rewrite Forall_forall in *. intros y Hy. apply Hx.
    eapply In_firstn. exact Hy.
Qed.

Lemma slice_to_nonneg (A : Type) (l : list A) (stop : Z) :
  (0 <= stop)%Z -> slice_to l stop = firstn (Z.to_nat stop) l.
Proof.
  intros H. unfold slice_to.
  destruct (Z.ltb_spec stop 0); [lia | reflexivity].
Qed.

Lemma slice_to_neg (A : Type) (l : list A) (stop : Z) :
  (stop < 0)%Z ->
  slice_to l stop = firstn (length l - Z.to_nat (- stop)) l.
Proof.
  intros H. unfold slice_to.
  destruct (Z.ltb_spec stop 0); [|lia].
  f_equal. lia.
Qed.

Lemma slice_to_In (A : Type) (l : list A) (stop : Z) (x : A) :
  In x (slice_to l stop) -> In x l.
Proof.
  unfold slice_to. destruct (stop <? 0)%Z; apply In_firstn.
Qed.

Lemma glob_pdf_In (entries : list (str * node)) (p : path) :
  In p (glob_pdf (Some (Directory entries))) <->
  In p entries /\ matches_pdf (name p) = true.
Proof. simpl. apply filter_In. Qed.

(* ===================================================================== *)
(** ** Facts about extract_pages                                          *)
(* ===================================================================== *)

Lemma extract_loop_valid (pages : list page) (s : nat) :
  forallb page_ok pages = true ->
  extract_loop (enumerate (Z.of_nat s) pages)
  = (combine (map Z.of_nat (seq s (length pages))) (map page_content pages),
     None).
Proof.
  revert s. induction pages as [|p pages IH]; intros s Hok; simpl.
  - reflexivity.
  - simpl in Hok. apply andb_true_iff in Hok as [Hp Hps].
    destruct p as [v|]; [|discriminate].
    replace (Z.of_nat s + 1)%Z with (Z.of_nat (S s)) by lia.
    now rewrite (IH (S s) Hps).
Qed.

Lemma extract_loop_status (ps : list (Z * page)) :
  snd (extract_loop ps) = None \/ snd (extract_loop ps) = Some PdfReadError.
Proof.
  induction ps as [|[i p] ps IH]; simpl; [now left|].
  destruct p; [|now right].
  destruct (extract_loop ps); exact IH.
Qed.

(** Every content a generator yields is trimmed. *)
Lemma extract_loop_trimmed (ps : list (Z * page)) :
  Forall (fun y => strip (snd y) = snd y) (fst (extract_loop ps)).
Proof.
  induction ps as [|[i p] ps IH]; simpl; [constructor|].
  destruct p as [v|]; [|constructor].
  destruct (extract_loop ps) as [ys e]. simpl in *.
  constructor; [apply strip_idem | exact IH].
Qed.

Lemma extract_pages_trimmed (f : node) :
  Forall (fun y => strip (snd y) = snd y) (fst (extract_pages f)).
Proof.
  unfold extract_pages. destruct (PdfReader f); [|constructor].
  apply extract_loop_trimmed.
Qed.

(** Page numbers of one generator never repeat. *)
Lemma extract_loop_numbers (ps : list (Z * page)) :
  exists n, map fst (fst (extract_loop ps)) = firstn n (map fst ps).
Proof.
  induction ps as [|[i p] ps (n & IH)]; simpl.
  - now exists 0.
  - destruct p as [v|]; [|now exists 0].
    destruct (extract_loop ps) as [ys e]. simpl in *.
    exists (S n). simpl. now rewrite IH.
Qed.

Lemma enumerate_fst (A : Type) (l : list A) (s : nat) :
  map fst (enumerate (Z.of_nat s) l) = map Z.of_nat (seq s (length l)).
Proof.
  revert s. induction l as [|x l IH]; intros s; simpl; [reflexivity|].
  replace (Z.of_nat s + 1)%Z with (Z.of_nat (S s)) by lia.
  now rewrite IH.
Qed.

Lemma NoDup_firstn (A : Type) (n : nat) (l : list A) :
  NoDup l -> NoDup (firstn n l).
Proof.
  intros H. revert n. induction H as [|x l Hx Hl IH]; intros [|n]; simpl;
    try constructor.
  - intros Hin. apply Hx. eapply In_firstn. exact Hin.
  - apply IH.
Qed.

Lemma extract_pages_numbers_NoDup (f : node) :
  NoDup (map fst (fst (extract_pages f))).
Proof.
  unfold extract_pages. destruct (PdfReader f) as [pages|]; [|constructor].
  destruct (extract_loop_numbers (enumerate 1 pages)) as (n & ->).
  apply NoDup_firstn.
  change 1%Z with (Z.of_nat 1). rewrite (enumerate_fst _ pages 1).
  apply Finite.Injective_map_NoDup; [|apply seq_NoDup].
  intros a b Hab. lia.
Qed.

Lemma extract_pages_valid (f : node) :
  valid_pdf f = true -> snd (extract_pages f) = None.
Proof.
  unfold valid_pdf, extract_pages.
  destruct (PdfReader f) as [pages|]; [|discriminate].
  intros H. change 1%Z with (Z.of_nat 1).
  now rewrite (extract_loop_valid pages 1 H).
Qed.

Lemma combine_fst (A B : Type) (l : list A) (m : list B) :
  length l = length m -> map fst (combine l m) = l.
Proof.
  revert m. induction l as [|a l IH]; intros [|b m] H; simpl in *;
    try discriminate; [reflexivity|].
  f_equal. apply IH. now injection H.
Qed.

Lemma combine_snd (A B : Type) (l : list A) (m : list B) :
  length l = length m -> map snd (combine l m) = m.
Proof.
  revert m. induction l as [|a l IH]; intros [|b m] H; simpl in *;
    try discriminate; [reflexivity|].
  f_equal. apply IH. now injection H.
Qed.

(** C4. For a valid PDF file of [n] pages, [extract_pages] ends normally
    after it has yielded exactly [n] pairs, numbered [1..n] in document
    order, each with the trimmed text of its page; and draining it a second
    time, in the world the first drain left, gives the same sequence. *)
Theorem extract_pages_complete_restartable (pages : list page) :
  forallb page_ok pages = true ->
  let f := Regular (Document pages) in
  let n := length pages in
  let ys := combine (map Z.of_nat (seq 1 n)) (map page_content pages) in
  extract_pages f = (ys, None)
  /\ length ys = n
  /\ map fst ys = map Z.of_nat (seq 1 n)
  /\ map snd ys = map page_content pages
  /\ forall (pdf : str) (records : list record) (w : world),
       let first := call_extract (pdf, f) records w in
       let second := call_extract (pdf, f) records (fst first) in
       snd first
       = Ok (records ++ map (fun y => (pdf, fst y, snd y)) ys)
       /\ snd second = snd first
       /\ db (fst second) = db w.
Proof.
  intros Hok f n ys.
  assert (Hex : extract_pages f = (ys, None)).
  { unfold extract_pages, f. simpl. apply (extract_loop_valid pages 1 Hok). }
  assert (Hlen : length (map Z.of_nat (seq 1 n)) = length (map page_content pages)).
  { now rewrite !length_map, length_seq. }
  split; [exact Hex|].
  split.
  { unfold ys. rewrite length_combine, Hlen, Nat.min_id. apply length_map. }
  split; [apply combine_fst; exact Hlen|].
  split; [apply combine_snd; exact Hlen|].
  intros pdf records w. unfold call_extract, bind, log, ret. simpl snd at 1 2.
  cbv zeta. simpl. fold f. rewrite Hex. simpl. auto.
Qed.

Lemma extract_pages_complete_restartable_witness :
  forallb page_ok
    [ExtractText (Some [32; 104; 105; 10]%N); ExtractText None;
     ExtractText (Some [])] = true
  /\ extract_pages
       (Regular (Document
          [ExtractText (Some [32; 104; 105; 10]%N); ExtractText None;
           ExtractText (Some [])]))
     = ([(1%Z, [104; 105]%N); (2%Z, []); (3%Z, [])], None).
Proof.
  split; [reflexivity|].
  exact (proj1 (extract_pages_complete_restartable
                  [ExtractText (Some [32; 104; 105; 10]%N); ExtractText None;
                   ExtractText (Some [])] eq_refl)).
Defined.

(* ===================================================================== *)
(** ** collect_pdf_files                                                  *)
(* ===================================================================== *)

Lemma collect_pdf_files_In (entries : list (str * node)) (limit : Z)
  (p : path) :
  In p (collect_pdf_files (Some (Directory entries)) limit) ->
  In p entries /\ matches_pdf (name p) = true.
Proof.
  unfold collect_pdf_files. intros H.
  apply slice_to_In in H.
  apply (Permutation_in _ (sorted_perm _)) in H.
  now apply glob_pdf_In.
Qed.

Lemma call_collect_run (source_dir : option node) (limit : Z) (w : world) :
  call_collect source_dir limit w
  = (mkWorld (db w) (calls w ++ [CallCollect limit]),
     Ok (collect_pdf_files source_dir limit)).
Proof. reflexivity. Qed.

(** C5. For a directory with [k] entries matching [*.pdf] and a positive
    limit [L], [collect_pdf_files] returns the first [L] entries of the
    matching entries sorted ascending by name: [min k L] paths, each an
    entry directly inside the directory whose name ends in [.pdf]. The call
    leaves the database as it was and returns the same list in every
    world. *)
Theorem collect_pdf_files_contract (entries : list (str * node)) (limit : Z) :
  (0 < limit)%Z ->
  let source_dir := Some (Directory entries) in
  let matching := filter (fun e => matches_pdf (name e)) entries in
  let out := collect_pdf_files source_dir limit in
  length out = Nat.min (length matching) (Z.to_nat limit)
  /\ out = firstn (Z.to_nat limit) (sorted matching)
  /\ Permutation (sorted matching) matching
  /\ StronglySorted path_le out
  /\ (forall p, In p out ->
        In p entries /\ exists stem, name p = stem ++ lit ".pdf"%string)
  /\ (forall w,
        snd (call_collect source_dir limit w) = Ok out
        /\ db (fst (call_collect source_dir limit w)) = db w).
Proof.
  intros Hpos source_dir matching out.
  assert (Hout : out = firstn (Z.to_nat limit) (sorted matching)).
  { unfold out, collect_pdf_files. simpl glob_pdf. fold matching.
    apply slice_to_nonneg. lia. }
  split.
  { rewrite Hout, length_firstn, sorted_length. apply Nat.min_comm. }
  split; [exact Hout|].
  split; [apply sorted_perm|].
  split.
  { rewrite Hout. apply firstn_StronglySorted, sorted_StronglySorted. }
  split.
  { intros p Hp. apply collect_pdf_files_In in Hp as [Hin Hm].
    split; [exact Hin | now apply matches_pdf_spec]. }
  intros w. now rewrite call_collect_run.
Qed.

Lemma collect_pdf_files_contract_witness :
  (0 < 2)%Z
  /\ map name
       (collect_pdf_files
          (Some (Directory
             [(lit "c.pdf"%string, Regular Unparseable);
              (lit "sub"%string,
                Directory [(lit "a.pdf"%string, Regular Unparseable)]);
              (lit "b.pdf"%string, Regular (Document []));
              (lit "readme.txt"%string, Regular Unparseable);
              (lit "ab.pdf"%string, Regular (Document []))])) 2)
     = [lit "ab.pdf"%string; lit "b.pdf"%string].
Proof.
  split; [lia|].
  rewrite (proj1 (proj2 (collect_pdf_files_contract
             [(lit "c.pdf"%string, Regular Unparseable);
              (lit "sub"%string,
                Directory [(lit "a.pdf"%string, Regular Unparseable)]);
              (lit "b.pdf"%string, Regular (Document []));
              (lit "readme.txt"%string, Regular Unparseable);
              (lit "ab.pdf"%string, Regular (Document []))] 2 eq_refl))).
  reflexivity.
Defined.

Lemma collect_pdf_files_zero (source_dir : option node) :
  collect_pdf_files source_dir 0 = [].
Proof. reflexivity. Qed.

Lemma firstn_rev_skipn (A : Type) (n : nat) (l : list A) :
  firstn (length l - n) l = rev (skipn n (rev l)).
Proof. now rewrite skipn_rev, rev_involutive. Qed.

(* ===================================================================== *)
(** ** Facts about the table                                              *)
(* ===================================================================== *)

Lemma key_eqb_sym (a b : key) : key_eqb a b = key_eqb b a.
Proof.
  unfold key_eqb.
  destruct (key_eq_dec a b), (key_eq_dec b a); congruence.
Qed.

Lemma filter_filter (A : Type) (p q : A -> bool) (l : list A) :
  filter p (filter q l) = filter (fun x => q x && p x) l.
Proof.
  induction l as [|a l IH]; simpl; [reflexivity|].
  destruct (q a); simpl; [destruct (p a)|]; now rewrite IH.
Qed.

Lemma filter_all (A : Type) (p : A -> bool) (l : list A) :
  (forall x, In x l -> p x = true) -> filter p l = l.
Proof.
  induction l as [|a l IH]; intros H; simpl; [reflexivity|].
  rewrite (H a (or_introl eq_refl)). f_equal.
  apply IH. intros x Hx. apply H. now right.
Qed.

Lemma filter_none (A : Type) (p : A -> bool) (l : list A) :
  (forall x, In x l -> p x = false) -> filter p l = [].
Proof.
  induction l as [|a l IH]; intros H; simpl; [reflexivity|].
  rewrite (H a (or_introl eq_refl)).
  apply IH. intros x Hx. apply H. now right.
Qed.

Lemma has_key_In (k : key) (rows : list row) :
  has_key k rows = true <-> exists r, In r rows /\ row_key r = k.
Proof.
  unfold has_key. rewrite existsb_exists.
  split; intros (r & Hin & Hk); exists r; split; auto; now apply key_eqb_eq.
Qed.

Lemma has_key_map (k : key) (rows : list row) :
  has_key k rows = true <-> In k (map row_key rows).
Proof.
  rewrite has_key_In, in_map_iff.
  split; intros (r & H1 & H2); exists r; auto.
Qed.

Lemma dedup_last_In (r : row) (rows : list row) :
  In r (dedup_last rows) -> In r rows.
Proof.
  induction rows as [|a rows IH]; simpl; [tauto|].
  destruct (has_key (row_key a) rows); simpl; intuition.
Qed.

(** What one batch of upserts leaves: the old rows whose key is not in the
    batch, then the rows of the batch that no later one replaces. *)
Lemma upsert_all_closed (rows : list row) (t : table) :
  upsert_all rows t
  = filter (fun x => negb (has_key (row_key x) rows)) t ++ dedup_last rows.
Proof.
  revert t. induction rows as [|r rows IH]; intros t.
  - simpl. rewrite app_nil_r. symmetry. now apply filter_all.
  - change (upsert_all (r :: rows) t)
      with (upsert_all rows (insert_or_replace r t)).
    rewrite IH. unfold insert_or_replace.
    rewrite filter_app, filter_filter, <- app_assoc. f_equal.
    + apply filter_ext. intros x. simpl.
      rewrite (key_eqb_sym (row_key r) (row_key x)).
      now rewrite negb_orb.
    + simpl. now destruct (has_key (row_key r) rows).
Qed.

(** Running the same batch again changes nothing. *)
Lemma upsert_all_idem (rows : list row) (t : table) :
  upsert_all rows (upsert_all rows t) = upsert_all rows t.
Proof.
  rewrite (upsert_all_closed rows (upsert_all rows t)).
  rewrite (upsert_all_closed rows t) at 1.
  rewrite filter_app, filter_filter.
  rewrite (filter_none _ _ (dedup_last rows)).
  - rewrite app_nil_r, upsert_all_closed. f_equal.
    apply filter_ext. intros x. apply andb_diag.
  - intros x Hx. apply dedup_last_In in Hx.
    apply negb_false_iff, has_key_In. now exists x.
Qed.

Lemma NoDup_map_filter (K V : Type) (key_of : V -> K) (keep : V -> bool) :
  forall xs : list V,
    NoDup (map key_of xs) -> NoDup (map key_of (filter keep xs)).
Proof.
  intros xs. induction xs as [|v xs IH]; simpl; intros Hnd; [constructor|].
  apply NoDup_cons_iff in Hnd as [Hfresh Hnd].
  destruct (keep v); simpl; [|now apply IH].
  constructor; [|now apply IH].
  rewrite in_map_iff. intros (x & Hk & Hx).
  apply Hfresh. rewrite in_map_iff. exists x.
  split; [exact Hk|]. now apply filter_In in Hx.
Qed.

Lemma filter_unique_keys (p : row -> bool) (t : table) :
  unique_keys t -> unique_keys (filter p t).
Proof. apply NoDup_map_filter. Qed.

(** [INSERT OR REPLACE] keeps the primary key unique. *)
Lemma insert_or_replace_unique (r : row) (t : table) :
  unique_keys t -> unique_keys (insert_or_replace r t).
Proof.
  intros H. unfold unique_keys, insert_or_replace. rewrite map_app.
  apply NoDup_app.
  - now apply filter_unique_keys.
  - simpl. repeat constructor. intros [].
  - intros k Hk [Hr | []].
    apply in_map_iff in Hk as (x & Hkx & Hx).
    apply filter_In in Hx as [_ Hx].
    apply negb_true_iff, key_eqb_neq in Hx. congruence.
Qed.

Lemma upsert_all_unique (rows : list row) (t : table) :
  unique_keys t -> unique_keys (upsert_all rows t).
Proof.
  revert t. induction rows as [|r rows IH]; intros t H; simpl; [exact H|].
  apply IH. now apply insert_or_replace_unique.
Qed.

(** After [INSERT OR REPLACE] of [r], its key selects [r] alone and other
    keys select what they did. *)
Lemma rows_with_insert (k : key) (r : row) (t : table) :
  rows_with k (insert_or_replace r t)
  = if key_eqb (row_key r) k then [r] else rows_with k t.
Proof.
  unfold rows_with, insert_or_replace.
  rewrite filter_app, filter_filter. simpl.
  destruct (key_eqb (row_key r) k) eqn:Hk.
  - apply key_eqb_eq in Hk. subst k.
    rewrite filter_none; [reflexivity|].
    intros x _. now destruct (key_eqb (row_key x) (row_key r)).
  - rewrite app_nil_r. apply filter_ext. intros x.
    destruct (key_eqb (row_key x) k) eqn:Hx; [|apply andb_false_r].
    apply key_eqb_eq in Hx. subst k.
    rewrite key_eqb_sym, Hk. reflexivity.
Qed.

Lemma rows_with_upsert_other (k : key) (rows : list row) (t : table) :
  ~ In k (map row_key rows) ->
  rows_with k (upsert_all rows t) = rows_with k t.
Proof.
  revert t. induction rows as [|r rows IH]; intros t H; [reflexivity|].
  simpl in *. rewrite IH by tauto.
  rewrite rows_with_insert.
  destruct (key_eqb (row_key r) k) eqn:Hk; [|reflexivity].
  apply key_eqb_eq in Hk. tauto.
Qed.

Lemma rows_with_upsert_in (r : row) (rows : list row) (t : table) :
  NoDup (map row_key rows) -> In r rows ->
  rows_with (row_key r) (upsert_all rows t) = [r].
Proof.
  revert t. induction rows as [|a rows IH]; intros t Hnd Hin; [destruct Hin|].
  simpl in *. inversion Hnd as [|k ks Hnotin Hnd']; subst.
  destruct Hin as [-> | Hin].
  - rewrite rows_with_upsert_other by assumption.
    now rewrite rows_with_insert, key_eqb_refl.
  - now apply IH.
Qed.

(** Rows that a batch leaves in the table are old rows or rows of the batch. *)
Lemma upsert_all_In (x : row) (rows : list row) (t : table) :
  In x (upsert_all rows t) -> In x t \/ In x rows.
Proof.
  rewrite upsert_all_closed, in_app_iff, filter_In.
  intros [[H _] | H]; [now left | right; now apply dedup_last_In].
Qed.

Lemma rows_with_upsert_has (k : key) (rows : list row) (t : table) :
  In k (map row_key rows) ->
  exists r, In r rows /\ row_key r = k
            /\ rows_with k (upsert_all rows t) = [r].
Proof.
  revert t. induction rows as [|a rows IH]; intros t Hin; [destruct Hin|].
  simpl upsert_all.
  destruct (in_dec key_eq_dec k (map row_key rows)) as [Hlater | Hlast].
  - destruct (IH (insert_or_replace a t) Hlater) as (r & Hr & Hk & Hsel).
    exists r. simpl. auto.
  - destruct Hin as [Ha | Hin]; [|contradiction].
    exists a. split; [now left|]. split; [exact Ha|].
    rewrite rows_with_upsert_other by assumption.
    rewrite rows_with_insert, Ha. now rewrite key_eqb_refl.
Qed.

(* ===================================================================== *)
(** ** Facts about the connection and store_pages_in_db                   *)
(* ===================================================================== *)

Lemma create_after_connect (d : database) :
  create_table_if_not_exists (connect d)
  = mkConn (Some (stored_rows d)) (Some (stored_rows d)) false.
Proof. destruct d as [|[t|]]; reflexivity. Qed.

(** The loop of [executemany] inside an open transaction, from record [i]
    on: it ends normally exactly when no statement fails; it never touches
    the durable copy and leaves the transaction open. *)
Lemma executemany_loop_run (env : faults) (records : list record) :
  forall (i : nat) (c : connection) (t : table),
    working c = Some t ->
    in_transaction c = true ->
    let clean :=
      forallb (fun j => negb (env (OpInsert j))) (seq i (length records)) in
    exists c',
      executemany_loop env i records c
      = (c', if clean then Ok tt else Raise SqliteError)
      /\ durable c' = durable c
      /\ in_transaction c' = true
      /\ (clean = true ->
            working c' = Some (upsert_all (map bind_row records) t)).
Proof.
  induction records as [|rec rest IH]; intros i c t Hw Htx; simpl.
  - exists c. auto.
  - destruct (env (OpInsert i)) eqn:Hf; simpl.
    + exists c. repeat split; auto. discriminate.
    + unfold execute_insert. rewrite Hw, Htx.
      destruct (IH (S i)
                  (mkConn (durable c)
                     (Some (insert_or_replace (bind_row rec) t)) true)
                  (insert_or_replace (bind_row rec) t) eq_refl eq_refl)
        as (c' & Hrun & Hdur & Htx' & Hok).
      exists c'. rewrite Hrun. repeat split; auto.
Qed.

(** One call of [store_pages_in_db], statement by statement. *)
Lemma store_run (env : faults) (records : list record) (d : database) :
  store_pages_in_db env records d
  = if env OpConnect then (d, Raise SqliteError)
    else if env OpCreateTable
    then (Database (match d with NoDatabase => None | Database t => t end),
          Raise SqliteError)
    else if fault_free env records
    then (Database (Some (upsert_all (map bind_row records) (stored_rows d))),
          Ok tt)
    else (Database (Some (stored_rows d)), Raise SqliteError).
Proof.
  unfold store_pages_in_db, with_connection, store_body, fault_free.
  destruct (env OpConnect); [reflexivity|].
  destruct (env OpCreateTable); [now destruct d|].
  rewrite create_after_connect.
  unfold executemany, begin_transaction. cbn [in_transaction durable working].
  destruct (env OpBegin); [reflexivity|].
  destruct (executemany_loop_run env records 0
              (mkConn (Some (stored_rows d)) (Some (stored_rows d)) true)
              (stored_rows d) eq_refl eq_refl)
    as (c' & Hrun & Hdur & Htx & Hok).
  cbv zeta in Hrun, Hok. rewrite Hrun. cbn [negb andb].
  destruct (forallb _ _).
  - rewrite Htx. destruct (env OpCommit); cbn [negb andb rollback commit
                                               durable].
    + now rewrite Hdur.
    + now rewrite (Hok eq_refl).
  - cbn [andb rollback durable]. now rewrite Hdur.
Qed.

(** No statement fails: spelled out per statement. *)
Lemma fault_free_iff (env : faults) (records : list record) :
  fault_free env records = true
  <-> env OpConnect = false
      /\ env OpCreateTable = false
      /\ env OpBegin = false
      /\ (forall i, i < length records -> env (OpInsert i) = false)
      /\ env OpCommit = false.
Proof.
  unfold fault_free.
  rewrite !andb_true_iff, !negb_true_iff, forallb_forall.
  split.
  - intros [[[[Hc Ht] Hb] Hi] Hm]. repeat split; auto.
    intros i Hlt. apply negb_true_iff, Hi, in_seq. lia.
  - intros (Hc & Ht & Hb & Hi & Hm). repeat split; auto.
    intros i Hin. apply negb_true_iff, Hi. apply in_seq in Hin. lia.
Qed.

Lemma store_fault_free (env : faults) (records : list record) (d : database) :
  fault_free env records = true ->
  store_pages_in_db env records d
  = (Database (Some (upsert_all (map bind_row records) (stored_rows d))),
     Ok tt).
Proof.
  intros Hff. rewrite store_run, Hff.
  apply fault_free_iff in Hff as (-> & -> & _). reflexivity.
Qed.

Lemma store_faulty (env : faults) (records : list record) (d : database) :
  fault_free env records = false ->
  exists d',
    store_pages_in_db env records d = (d', Raise SqliteError)
    /\ stored_rows d' = stored_rows d.
Proof.
  intros Hff. rewrite store_run, Hff.
  destruct (env OpConnect); [now exists d|].
  destruct (env OpCreateTable); eexists; (split; [reflexivity|]).
  - now destruct d as [|[t|]].
  - reflexivity.
Qed.

Lemma bind_row_fields (rec : record) :
  bind_row rec = mkRow (fst (fst rec)) (snd (fst rec)) (Some (snd rec)).
Proof. now destruct rec as [[f n] c]. Qed.

Lemma upsert_all_last_wins (before : list row) (r : row) (after : list row)
  (t : table) :
  ~ In (row_key r) (map row_key after) ->
  rows_with (row_key r) (upsert_all (before ++ r :: after) t) = [r].
Proof.
  intros Hlast.
  change (before ++ r :: after) with (before ++ [r] ++ after).
  unfold upsert_all. rewrite !fold_left_app. fold upsert_all.
  simpl fold_left.
  change (fold_left (fun acc x => insert_or_replace x acc) after
            (insert_or_replace r (upsert_all before t)))
    with (upsert_all after (insert_or_replace r (upsert_all before t))).
  rewrite rows_with_upsert_other by assumption.
  now rewrite rows_with_insert, key_eqb_refl.
Qed.

(** C3. [store_pages_in_db] ends normally exactly when no statement fails:
    not the connect, not [CREATE TABLE], not the BEGIN that [executemany]
    issues before it looks at the records, not the [INSERT OR REPLACE] of
    any triple, not the COMMIT at the end of the with-block (which runs
    for an empty batch too). Then the table exists and holds the result of
    upserting in order the row [(file_name, page_number, content)] of every
    triple: the key of a triple selects exactly the row of the last triple
    with that key, other keys select what they did, and the primary key
    [(file_name, page_number)] is unique. When a statement fails, [sqlite3]
    raises and the rows of the stored table are the rows from before the
    call: no triple is committed. *)
Theorem store_pages_in_db_atomic (env : faults) (records : list record)
  (d d' : database) (r : result unit) :
  unique_keys (stored_rows d) ->
  store_pages_in_db env records d = (d', r) ->
  (r = Ok tt <->
     env OpConnect = false /\ env OpCreateTable = false
     /\ env OpBegin = false
     /\ (forall i, i < length records -> env (OpInsert i) = false)
     /\ env OpCommit = false)
  /\ match r with
     | Ok _ =>
         exists t',
           d' = Database (Some t')
           /\ t' = upsert_all
                     (map (fun rec : record =>
                             mkRow (fst (fst rec)) (snd (fst rec))
                                   (Some (snd rec)))
                          records)
                     (stored_rows d)
           /\ unique_keys t'
           /\ (forall before f n c after,
                 records = before ++ (f, n, c) :: after ->
                 (forall c', ~ In (f, n, c') after) ->
                 rows_with (f, n) t' = [mkRow f n (Some c)])
           /\ (forall f n c, In (f, n, c) records ->
                 exists c', In (f, n, c') records
                            /\ rows_with (f, n) t' = [mkRow f n (Some c')])
           /\ (forall f n, (forall c, ~ In (f, n, c) records) ->
                 rows_with (f, n) t' = rows_with (f, n) (stored_rows d))
     | Raise e => e = SqliteError /\ stored_rows d' = stored_rows d
     end.
Proof.
  intros Huniq Hrun.
  rewrite <- fault_free_iff.
  assert (Hmap : map (fun rec : record =>
                        mkRow (fst (fst rec)) (snd (fst rec)) (Some (snd rec)))
                     records
                 = map bind_row records).
  { apply map_ext. intros rec. symmetry. apply bind_row_fields. }
  assert (Hkeys : forall f n (l : list record),
            In (f, n) (map row_key (map bind_row l)) ->
            exists c, In (f, n, c) l).
  { intros f n l Hin. rewrite map_map in Hin.
    apply in_map_iff in Hin as ([[f' n'] c] & Hk & Hin).
    injection Hk as -> ->. now exists c. }
  destruct (fault_free env records) eqn:Hff.
  - rewrite (store_fault_free env records d Hff) in Hrun.
    injection Hrun as <- <-.
    split; [tauto|].
    exists (upsert_all (map bind_row records) (stored_rows d)).
    split; [reflexivity|].
    split; [now rewrite Hmap|].
    split; [now apply upsert_all_unique|].
    split; [|split].
    + intros before f n c after -> Hlast.
      rewrite map_app. simpl map.
      change (f, n) with (row_key (mkRow f n (Some c))).
      apply upsert_all_last_wins.
      intros Hin. apply Hkeys in Hin as (c' & Hin). now apply (Hlast c').
    + intros f n c Hrec.
      destruct (rows_with_upsert_has (f, n) (map bind_row records)
                  (stored_rows d)) as (x & Hx & Hk & Hsel).
      { rewrite map_map. apply in_map_iff. now exists (f, n, c). }
      apply in_map_iff in Hx as ([[f' n'] c'] & <- & Hrec').
      injection Hk as -> ->. now exists c'.
    + intros f n Hnone. apply rows_with_upsert_other.
      intros Hin. apply Hkeys in Hin as (c & Hin). now apply (Hnone c).
  - destruct (store_faulty env records d Hff) as (d1 & Hrun1 & Hrows).
    rewrite Hrun1 in Hrun. injection Hrun as <- <-.
    split; [split; discriminate|]. auto.
Qed.

Lemma store_pages_in_db_atomic_witness :
  unique_keys
    (stored_rows (Database (Some [mkRow [97%N] 1 (Some [120%N])])))
  /\ stored_rows
       (fst (store_pages_in_db
               (fun op => match op with OpInsert 1 => true | _ => false end)
               [([97%N], 1%Z, [121%N]); ([98%N], 1%Z, [122%N])]
               (Database (Some [mkRow [97%N] 1 (Some [120%N])]))))
     = [mkRow [97%N] 1 (Some [120%N])].
Proof.
  split; [repeat constructor; intros []|].
  exact (proj2 (proj2 (store_pages_in_db_atomic
    (fun op => match op with OpInsert 1 => true | _ => false end)
    [([97%N], 1%Z, [121%N]); ([98%N], 1%Z, [122%N])]
    (Database (Some [mkRow [97%N] 1 (Some [120%N])]))
    _ _
    (NoDup_cons _ (fun H : In _ [] => H) (NoDup_nil _))
    eq_refl))).
Defined.

(* ===================================================================== *)
(** ** Facts about the orchestrator                                       *)
(* ===================================================================== *)

Lemma extract_pages_status (f : node) :
  snd (extract_pages f) = None \/ snd (extract_pages f) = Some PdfReadError.
Proof.
  unfold extract_pages. destruct (PdfReader f); [|now right].
  apply extract_loop_status.
Qed.

Lemma call_extract_run (pdf_file : path) (records : list record) (w : world) :
  call_extract pdf_file records w
  = (mkWorld (db w) (calls w ++ [CallExtract (name pdf_file)]),
     if extract_ok pdf_file then Ok (records ++ tagged pdf_file)
     else Raise PdfReadError).
Proof.
  unfold call_extract, extract_ok, tagged, bind, log, ret, raise.
  destruct (extract_pages_status (snd pdf_file)) as [H | H];
    destruct (extract_pages (snd pdf_file)) as [ys e];
    simpl in *; subst e; reflexivity.
Qed.

(** The loop over the files: it leaves the database alone, drains one
    generator per file until one raises, and ends normally with all the
    records exactly when none does. *)
Lemma ingest_loop_run (pdf_files : list path) :
  forall (records : list record) (w : world),
    ingest_loop pdf_files records w
    = (mkWorld (db w) (calls w ++ extract_calls (attempted pdf_files)),
       if forallb extract_ok pdf_files
       then Ok (records ++ records_of pdf_files)
       else Raise PdfReadError).
Proof.
  induction pdf_files as [|f rest IH]; intros records w.
  - simpl. unfold ret. rewrite !app_nil_r. now destruct w.
  - simpl. unfold bind. rewrite call_extract_run.
    destruct (extract_ok f); simpl.
    + rewrite IH. simpl. rewrite <- !app_assoc. reflexivity.
    + reflexivity.
Qed.

Lemma attempted_all_ok (pdf_files : list path) :
  forallb extract_ok pdf_files = true -> attempted pdf_files = pdf_files.
Proof.
  induction pdf_files as [|f rest IH]; simpl; [reflexivity|].
  intros H. apply andb_true_iff in H as [-> H]. now rewrite IH.
Qed.

Lemma attempted_first_failure (before : list path) (f : path)
  (after : list path) :
  forallb extract_ok before = true -> extract_ok f = false ->
  attempted (before ++ f :: after) = before ++ [f]
  /\ forallb extract_ok (before ++ f :: after) = false.
Proof.
  intros Hb Hf. induction before as [|b before IH]; simpl in *.
  - now rewrite Hf.
  - apply andb_true_iff in Hb as [-> Hb].
    destruct (IH Hb) as [-> ->]. auto.
Qed.

(** One run of [ingest_pdfs], statement by statement. *)
Lemma ingest_pdfs_run (env : faults) (source_dir : option node) (limit : Z)
  (w : world) :
  let pdf_files := collect_pdf_files source_dir limit in
  let listed := calls w ++ [CallCollect limit] in
  ingest_pdfs env source_dir limit w
  = match pdf_files with
    | [] => (mkWorld (db w) listed, Raise FileNotFoundError)
    | _ :: _ =>
        if forallb extract_ok pdf_files
        then
          (mkWorld
             (fst (store_pages_in_db env (records_of pdf_files) (db w)))
             (listed ++ extract_calls pdf_files
                     ++ [CallStore (records_of pdf_files)]),
           snd (store_pages_in_db env (records_of pdf_files) (db w)))
        else
          (mkWorld (db w) (listed ++ extract_calls (attempted pdf_files)),
           Raise PdfReadError)
    end.
Proof.
  intros pdf_files listed.
  unfold ingest_pdfs, bind. rewrite call_collect_run. fold pdf_files.
  destruct pdf_files as [|f rest] eqn:Hfiles; [reflexivity|].
  rewrite ingest_loop_run. cbn [db calls].
  destruct (forallb extract_ok (f :: rest)) eqn:Hok; [|reflexivity].
  rewrite (attempted_all_ok _ Hok).
  unfold call_store, bind, log. cbn [db calls app].
  destruct (store_pages_in_db env (records_of (f :: rest)) (db w)).
  simpl. now rewrite <- app_assoc.
Qed.

Lemma new_calls_app (w : world) (d : database) (cs : list call) :
  new_calls w (mkWorld d (calls w ++ cs)) = cs.
Proof.
  unfold new_calls. simpl.
  rewrite skipn_app, skipn_all, Nat.sub_diag. reflexivity.
Qed.

Lemma extract_calls_no_store (pdf_files : list path) :
  filter is_store (extract_calls pdf_files) = [].
Proof. induction pdf_files as [|f rest IH]; simpl; auto. Qed.

(** [ingest_pdfs] calls [store_pages_in_db] at most once, as its last call,
    and only when the loop has drained every listed file. *)
Lemma store_called_once (env : faults) (source_dir : option node) (limit : Z)
  (w : world) :
  let pdf_files := collect_pdf_files source_dir limit in
  let made := new_calls w (fst (ingest_pdfs env source_dir limit w)) in
  (filter is_store made = []
   /\ db (fst (ingest_pdfs env source_dir limit w)) = db w)
  \/ (forallb extract_ok pdf_files = true
      /\ filter is_store made = [CallStore (records_of pdf_files)]
      /\ made = CallCollect limit :: extract_calls pdf_files
                ++ [CallStore (records_of pdf_files)]).
Proof.
  intros pdf_files made. unfold made. rewrite ingest_pdfs_run.
  fold pdf_files. destruct pdf_files as [|f rest] eqn:Hfiles.
  - left. cbn [fst db]. rewrite new_calls_app. auto.
  - destruct (forallb extract_ok (f :: rest)) eqn:Hok; cbn [fst db].
    + right. rewrite <- app_assoc, new_calls_app.
      split; [reflexivity|]. split; [|reflexivity].
      cbn [app filter is_store].
      now rewrite filter_app, extract_calls_no_store.
    + left. rewrite <- app_assoc, new_calls_app.
      cbn [app filter is_store]. now rewrite extract_calls_no_store.
Qed.

(** C6. When the generator of the N-th listed file raises, after those of
    the files before it ended normally, [ingest_pdfs] raises that error, the
    database is what it was, and the calls made are the listing and the N
    extractions: the records gathered so far are dropped. In every run
    [store_pages_in_db] is called at most once, as the last call, after the
    loop has gone through all listed files. *)
Theorem ingest_pdfs_no_partial_persistence (env : faults)
  (source_dir : option node) (limit : Z) (w : world)
  (before : list path) (f : path) (after : list path) :
  collect_pdf_files source_dir limit = before ++ f :: after ->
  forallb extract_ok before = true ->
  extract_ok f = false ->
  let out := ingest_pdfs env source_dir limit w in
  snd out = Raise PdfReadError
  /\ db (fst out) = db w
  /\ new_calls w (fst out)
     = CallCollect limit :: extract_calls (before ++ [f])
  /\ filter is_store (new_calls w (fst out)) = []
  /\ (forall env' source_dir' limit' w',
        let made :=
          new_calls w' (fst (ingest_pdfs env' source_dir' limit' w')) in
        let pdf_files' := collect_pdf_files source_dir' limit' in
        filter is_store made = []
        \/ (forallb extract_ok pdf_files' = true
            /\ made = CallCollect limit' :: extract_calls pdf_files'
                      ++ [CallStore (records_of pdf_files')])).
Proof.
  intros Hfiles Hbefore Hf out. unfold out.
  destruct (attempted_first_failure before f after Hbefore Hf)
    as [Hatt Hnok].
  rewrite ingest_pdfs_run, Hfiles.
  rewrite Hnok, Hatt.
  assert (Hshape : before ++ f :: after <> []) by now destruct before.
  destruct (before ++ f :: after) as [|x xs]; [congruence|].
  cbn [fst snd db]. rewrite <- app_assoc, new_calls_app.
  repeat split.
  - cbn [app filter is_store]. apply extract_calls_no_store.
  - intros env' source_dir' limit' w'.
    destruct (store_called_once env' source_dir' limit' w')
      as [[H _] | (H1 & _ & H2)]; [now left | now right].
Qed.

Lemma ingest_pdfs_no_partial_persistence_witness :
  forallb extract_ok [([97; 46; 112; 100; 102]%N, Regular (Document []))]
  = true
  /\ db (fst (ingest_pdfs no_fault
                (Some (Directory
                   [([98; 46; 112; 100; 102]%N, Regular Unparseable);
                    ([97; 46; 112; 100; 102]%N, Regular (Document []))]))
                5 (mkWorld NoDatabase [])))
     = NoDatabase.
Proof.
  split; [reflexivity|].
  exact (proj1 (proj2 (ingest_pdfs_no_partial_persistence no_fault
    (Some (Directory
       [([98; 46; 112; 100; 102]%N, Regular Unparseable);
        ([97; 46; 112; 100; 102]%N, Regular (Document []))]))
    5 (mkWorld NoDatabase [])
    [([97; 46; 112; 100; 102]%N, Regular (Document []))]
    ([98; 46; 112; 100; 102]%N, Regular Unparseable) []
    eq_refl eq_refl eq_refl))).
Defined.

(** C7. When the listing is empty, [ingest_pdfs] raises [FileNotFoundError]
    right after the listing: no generator is drained, [store_pages_in_db]
    is not called, and the database is what it was (absent if it was
    absent). *)
Theorem ingest_pdfs_empty_listing (env : faults) (source_dir : option node)
  (limit : Z) (w : world) :
  collect_pdf_files source_dir limit = [] ->
  let out := ingest_pdfs env source_dir limit w in
  snd out = Raise FileNotFoundError
  /\ db (fst out) = db w
  /\ new_calls w (fst out) = [CallCollect limit].
Proof.
  intros Hempty out. unfold out.
  rewrite ingest_pdfs_run, Hempty. cbn [fst snd db].
  now rewrite new_calls_app.
Qed.

Lemma ingest_pdfs_empty_listing_witness :
  collect_pdf_files
    (Some (Directory [(lit "notes.txt"%string, Regular Unparseable)])) 5 = []
  /\ snd (ingest_pdfs no_fault
            (Some (Directory [(lit "notes.txt"%string, Regular Unparseable)]))
            5 (mkWorld NoDatabase []))
     = Raise FileNotFoundError.
Proof.
  split; [reflexivity|].
  exact (proj1 (ingest_pdfs_empty_listing no_fault
    (Some (Directory [(lit "notes.txt"%string, Regular Unparseable)])) 5
    (mkWorld NoDatabase []) eq_refl)).
Defined.

(** C8. When nothing is at the source path, or a regular file is, [main]
    raises [NotADirectoryError] and the process exits with a non-zero
    status; the world is untouched: no listing, no extraction, no call of
    [store_pages_in_db], the database as it was. *)
Theorem main_invalid_source_dir (env : faults) (source_dir : option node)
  (limit : Z) (w : world) :
  source_dir = None \/ (exists src, source_dir = Some (Regular src)) ->
  main env source_dir limit w = (w, Raise NotADirectoryError)
  /\ exit_status (snd (main env source_dir limit w)) <> 0%Z
  /\ new_calls w (fst (main env source_dir limit w)) = [].
Proof.
  intros [-> | [src ->]]; unfold main, raise, new_calls; simpl;
    rewrite skipn_all; repeat split; discriminate.
Qed.

Lemma main_invalid_source_dir_witness :
  (@None node = None
   \/ exists src, @None node = Some (Regular src))
  /\ main no_fault None 5 (mkWorld NoDatabase [])
     = (mkWorld NoDatabase [], Raise NotADirectoryError).
Proof.
  split; [now left|].
  exact (proj1 (main_invalid_source_dir no_fault None 5
                  (mkWorld NoDatabase []) (or_introl eq_refl))).
Defined.


(** C9. The limit is used as given. With limit 0 the listing is empty and
    [ingest_pdfs] raises [FileNotFoundError] whatever the directory holds.
    With a negative limit the slice drops that many entries from the end of
    the sorted listing, and the run goes on with the rest: a directory with
    two one-page files and limit -1 ingests the first file. *)
Theorem nonpositive_limit_not_validated (env : faults)
  (source_dir : option node) (w : world) :
  (collect_pdf_files source_dir 0 = []
   /\ ingest_pdfs env source_dir 0 w
      = (mkWorld (db w) (calls w ++ [CallCollect 0]),
         Raise FileNotFoundError))
  /\ (forall limit : Z, (limit < 0)%Z ->
        let listing := sorted (glob_pdf source_dir) in
        collect_pdf_files source_dir limit
        = rev (skipn (Z.to_nat (- limit)) (rev listing))
        /\ length (collect_pdf_files source_dir limit)
           = length listing - Z.to_nat (- limit))
  /\ ingest_pdfs no_fault
       (Some (Directory
          [(lit "a.pdf"%string, Regular (Document [ExtractText None]));
           (lit "b.pdf"%string, Regular (Document [ExtractText None]))]))
       (-1) (mkWorld NoDatabase [])
     = (mkWorld
          (Database (Some [mkRow (lit "a.pdf"%string) 1 (Some [])]))
          [CallCollect (-1); CallExtract (lit "a.pdf"%string);
           CallStore [(lit "a.pdf"%string, 1%Z, [])]],
        Ok tt).
Proof.
  split; [|split].
  - split; [reflexivity|].
    now rewrite ingest_pdfs_run, collect_pdf_files_zero.
  - intros limit Hneg listing. unfold collect_pdf_files. fold listing.
    rewrite slice_to_neg by assumption.
    split; [apply firstn_rev_skipn|].
    rewrite length_firstn. lia.
  - reflexivity.
Qed.

Lemma nonpositive_limit_not_validated_witness :
  (-1 < 0)%Z
  /\ map name
       (collect_pdf_files
          (Some (Directory
             [(lit "b.pdf"%string, Regular Unparseable);
              (lit "c.pdf"%string, Regular Unparseable);
              (lit "a.pdf"%string, Regular Unparseable)])) (-1))
     = [lit "a.pdf"%string; lit "b.pdf"%string].
Proof.
  split; [lia|].
  rewrite (proj1 (proj1 (proj2 (nonpositive_limit_not_validated no_fault
    (Some (Directory
       [(lit "b.pdf"%string, Regular Unparseable);
        (lit "c.pdf"%string, Regular Unparseable);
        (lit "a.pdf"%string, Regular Unparseable)]))
    (mkWorld NoDatabase []))) (-1)%Z eq_refl)).
  reflexivity.
Defined.

(* ===================================================================== *)
(** ** The records of a run                                               *)
(* ===================================================================== *)

Lemma tagged_In (pdf_file : path) (rec : record) :
  In rec (tagged pdf_file) <->
  exists y, In y (fst (extract_pages (snd pdf_file)))
            /\ rec = (name pdf_file, fst y, snd y).
Proof.
  unfold tagged. rewrite in_map_iff.
  split; intros (y & H1 & H2); exists y; auto.
Qed.

Lemma records_of_In (pdf_files : list path) (rec : record) :
  In rec (records_of pdf_files) <->
  exists f y, In f pdf_files
              /\ In y (fst (extract_pages (snd f)))
              /\ rec = (name f, fst y, snd y).
Proof.
  unfold records_of. rewrite in_flat_map. split.
  - intros (f & Hf & Hrec). apply tagged_In in Hrec as (y & Hy & ->).
    now exists f, y.
  - intros (f & y & Hf & Hy & ->). exists f. split; [exact Hf|].
    apply tagged_In. now exists y.
Qed.

Lemma records_of_trimmed (pdf_files : list path) :
  Forall (fun rec : record => strip (snd rec) = snd rec)
         (records_of pdf_files).
Proof.
  apply Forall_forall. intros rec Hrec.
  apply records_of_In in Hrec as (f & y & _ & Hy & ->). simpl.
  pose proof (extract_pages_trimmed (snd f)) as H.
  rewrite Forall_forall in H. now apply H.
Qed.

Lemma store_rows_In (env : faults) (records : list record) (d : database)
  (x : row) :
  In x (stored_rows (fst (store_pages_in_db env records d))) ->
  In x (stored_rows d) \/ In x (map bind_row records).
Proof.
  destruct (fault_free env records) eqn:Hff.
  - rewrite (store_fault_free env records d Hff). simpl.
    apply upsert_all_In.
  - destruct (store_faulty env records d Hff) as (d' & -> & Hrows).
    simpl. rewrite Hrows. now left.
Qed.

(** C10. In every run of [ingest_pdfs], each record handed to
    [store_pages_in_db] is bound to a row whose content is a string, not
    NULL, and that string is trimmed already: trimming gives it back. So
    every row the run leaves in the table was there before or has such a
    content. *)
Theorem stored_content_trimmed (env : faults) (source_dir : option node)
  (limit : Z) (w : world) :
  let out := ingest_pdfs env source_dir limit w in
  (forall records, In (CallStore records) (new_calls w (fst out)) ->
     Forall (fun rec : record =>
               content (bind_row rec) = Some (snd rec)
               /\ strip (snd rec) = snd rec) records)
  /\ (forall x, In x (stored_rows (db (fst out))) ->
        In x (stored_rows (db w))
        \/ exists c, content x = Some c /\ strip c = c).
Proof.
  intros out.
  assert (Hbound : forall pdf_files,
            Forall (fun rec : record =>
                      content (bind_row rec) = Some (snd rec)
                      /\ strip (snd rec) = snd rec) (records_of pdf_files)).
  { intros pdf_files. pose proof (records_of_trimmed pdf_files) as H.
    rewrite Forall_forall in *. intros [[fn pn] c] Hrec.
    split; [reflexivity | now apply H]. }
  split.
  - intros records Hcall. subst out.
    assert (Hin : In (CallStore records)
                     (filter is_store
                        (new_calls w
                           (fst (ingest_pdfs env source_dir limit w)))))
      by now apply filter_In.
    destruct (store_called_once env source_dir limit w)
      as [[Hnone _] | (_ & Honce & _)].
    + rewrite Hnone in Hin. destruct Hin.
    + rewrite Honce in Hin. destruct Hin as [Heq | []].
      injection Heq as <-. apply Hbound.
  - intros x Hx. unfold out in Hx. rewrite ingest_pdfs_run in Hx.
    destruct (collect_pdf_files source_dir limit) as [|f rest];
      [now left|].
    destruct (forallb extract_ok (f :: rest)); [|now left].
    cbn [fst db] in Hx. apply store_rows_In in Hx as [Hx | Hx];
      [now left | right].
    apply in_map_iff in Hx as (rec & <- & Hrec).
    specialize (Hbound (f :: rest)). rewrite Forall_forall in Hbound.
    destruct (Hbound rec Hrec) as [Hc Hs]. eauto.
Qed.

Lemma stored_content_trimmed_witness :
  stored_rows
    (db (fst (ingest_pdfs no_fault
                (Some (Directory
                   [(lit "a.pdf"%string,
                     Regular (Document
                       [ExtractText (Some (lit "  two words  "%string));
                        ExtractText None]))]))
                5 (mkWorld NoDatabase []))))
  = [mkRow (lit "a.pdf"%string) 1 (Some (lit "two words"%string));
     mkRow (lit "a.pdf"%string) 2 (Some [])]
  /\ Forall (fun rec : record =>
               content (bind_row rec) = Some (snd rec)
               /\ strip (snd rec) = snd rec)
       [(lit "a.pdf"%string, 1%Z, lit "two words"%string);
        (lit "a.pdf"%string, 2%Z, [])].
Proof.
  split; [reflexivity|].
  apply (proj1 (stored_content_trimmed no_fault
    (Some (Directory
       [(lit "a.pdf"%string,
         Regular (Document
           [ExtractText (Some (lit "  two words  "%string));
            ExtractText None]))]))
    5 (mkWorld NoDatabase []))).
  right. right. now left.
Defined.

Lemma slice_to_firstn (A : Type) (l : list A) (stop : Z) :
  exists n, slice_to l stop = firstn n l.
Proof. unfold slice_to. destruct (stop <? 0)%Z; eauto. Qed.

(** The names of a listing are distinct, as the names in a directory are. *)
Lemma collect_names_NoDup (entries : list (str * node)) (limit : Z) :
  NoDup (map fst entries) ->
  NoDup (map name (collect_pdf_files (Some (Directory entries)) limit)).
Proof.
  intros H. unfold collect_pdf_files.
  destruct (slice_to_firstn _ (sorted (glob_pdf (Some (Directory entries))))
              limit) as (n & ->).
  rewrite <- firstn_map. apply NoDup_firstn.
  apply (Permutation_NoDup
           (Permutation_sym (Permutation_map name (sorted_perm _)))).
  simpl. now apply NoDup_map_filter.
Qed.

Lemma tagged_keys (pdf_file : path) :
  map row_key (map bind_row (tagged pdf_file))
  = map (pair (name pdf_file))
        (map fst (fst (extract_pages (snd pdf_file)))).
Proof.
  unfold tagged. rewrite !map_map. apply map_ext. now intros [pn c].
Qed.

Lemma records_of_key_names (pdf_files : list path) (k : key) :
  In k (map row_key (map bind_row (records_of pdf_files))) ->
  In (fst k) (map name pdf_files).
Proof.
  rewrite map_map, in_map_iff. intros (rec & <- & Hrec).
  apply records_of_In in Hrec as (f & y & Hf & _ & ->).
  simpl. now apply in_map.
Qed.

(** No two records of a run share a key when the listed names differ. *)
Lemma records_of_keys_NoDup (pdf_files : list path) :
  NoDup (map name pdf_files) ->
  NoDup (map row_key (map bind_row (records_of pdf_files))).
Proof.
  induction pdf_files as [|f rest IH]; simpl; intros H; [constructor|].
  inversion H as [|n ns Hnotin Hnodup]; subst.
  rewrite !map_app. apply NoDup_app.
  - rewrite tagged_keys.
    apply Finite.Injective_map_NoDup.
    + intros a b Hab. now injection Hab.
    + apply extract_pages_numbers_NoDup.
  - now apply IH.
  - intros k Hk Hk'. apply records_of_key_names in Hk'.
    rewrite tagged_keys in Hk. apply in_map_iff in Hk as (pn & <- & _).
    now apply Hnotin.
Qed.

(** A run ends normally exactly when a file is listed, every generator ends
    normally and no statement of the store fails; then the table holds the
    upserted records of the run. *)
Lemma ingest_pdfs_ok_iff (env : faults) (source_dir : option node)
  (limit : Z) (w : world) :
  let pdf_files := collect_pdf_files source_dir limit in
  snd (ingest_pdfs env source_dir limit w) = Ok tt
  <-> pdf_files <> []
      /\ forallb extract_ok pdf_files = true
      /\ fault_free env (records_of pdf_files) = true.
Proof.
  intros pdf_files. rewrite ingest_pdfs_run. fold pdf_files.
  destruct pdf_files as [|f rest].
  { simpl. split; [discriminate | intros [H _]; congruence]. }
  destruct (forallb extract_ok (f :: rest)).
  2:{ simpl. split; [discriminate | intros (_ & H & _); discriminate]. }
  cbn [snd].
  destruct (fault_free env (records_of (f :: rest))) eqn:Hff.
  - rewrite (store_fault_free _ _ _ Hff). simpl.
    split; [intros _; repeat split; discriminate | reflexivity].
  - destruct (store_faulty env (records_of (f :: rest)) (db w) Hff)
      as (d' & -> & _).
    simpl. split; [discriminate | intros (_ & _ & H); discriminate].
Qed.

Lemma ingest_pdfs_ok_db (env : faults) (source_dir : option node)
  (limit : Z) (w : world) :
  snd (ingest_pdfs env source_dir limit w) = Ok tt ->
  db (fst (ingest_pdfs env source_dir limit w))
  = Database
      (Some (upsert_all
               (map bind_row
                  (records_of (collect_pdf_files source_dir limit)))
               (stored_rows (db w)))).
Proof.
  intros Hok. pose proof Hok as Hok'.
  apply ingest_pdfs_ok_iff in Hok' as (Hne & Hall & Hff).
  rewrite ingest_pdfs_run.
  destruct (collect_pdf_files source_dir limit) as [|f rest];
    [congruence|].
  rewrite Hall. cbn [fst db].
  now rewrite (store_fault_free _ _ _ Hff).
Qed.

Lemma extract_ok_valid (pdf_file : path) :
  extract_ok pdf_file = true <-> valid_pdf (snd pdf_file) = true.
Proof.
  unfold extract_ok, valid_pdf, extract_pages.
  destruct (PdfReader (snd pdf_file)) as [pages|];
    [|split; discriminate].
  generalize 1%Z.
  induction pages as [|p pages IH]; intros s; simpl; [tauto|].
  destruct p as [v|]; simpl; [|split; discriminate].
  specialize (IH (s + 1)%Z).
  destruct (extract_loop (enumerate (s + 1) pages)) as [ys e]. exact IH.
Qed.

Lemma combine_numbered_In (pages : list page) (i s : nat) (p : page) :
  nth_error pages i = Some p ->
  In (Z.of_nat (s + i), page_content p)
     (combine (map Z.of_nat (seq s (length pages)))
              (map page_content pages)).
Proof.
  revert i s. induction pages as [|q pages IH]; intros [|i] s H; simpl in *;
    try discriminate.
  - injection H as ->. left. now rewrite Nat.add_0_r.
  - right. replace (s + S i) with (S s + i) by lia. now apply IH.
Qed.

(* ===================================================================== *)
(** ** Round trip and idempotence                                         *)
(* ===================================================================== *)

(** C1. After a run of [ingest_pdfs] on a directory that ended normally,
    selecting the key [(file_name, page_number)] of any pair that
    [extract_pages] yields for a listed file returns one row, whose content
    is the content of that pair. For page [i+1] of the document that is the
    trimmed text of the page, the empty string when [extract_text] gives
    None or the empty string. The names in the directory are distinct. *)
Theorem ingest_round_trip (env : faults) (entries : list (str * node))
  (limit : Z) (w : world) :
  NoDup (map fst entries) ->
  let source_dir := Some (Directory entries) in
  let out := ingest_pdfs env source_dir limit w in
  snd out = Ok tt ->
  forall f, In f (collect_pdf_files source_dir limit) ->
    (forall pn c, In (pn, c) (fst (extract_pages (snd f))) ->
       select_content (db (fst out)) (name f, pn) = [Some c])
    /\ (forall pages i v,
          snd f = Regular (Document pages) ->
          nth_error pages i = Some (ExtractText v) ->
          select_content (db (fst out)) (name f, Z.of_nat (1 + i))
          = [Some (strip (or_empty v))]).
Proof.
  intros Hnames source_dir out Hok f Hf.
  assert (Hsel : forall pn c, In (pn, c) (fst (extract_pages (snd f))) ->
            select_content (db (fst out)) (name f, pn) = [Some c]).
  { intros pn c Hy. unfold out.
    rewrite (ingest_pdfs_ok_db env source_dir limit w Hok).
    unfold select_content. cbn [stored_rows].
    change (name f, pn) with (row_key (bind_row (name f, pn, c))).
    rewrite rows_with_upsert_in; [reflexivity | |].
    - apply records_of_keys_NoDup. now apply collect_names_NoDup.
    - apply in_map. apply records_of_In. now exists f, (pn, c). }
  split; [exact Hsel|].
  intros pages i v Hdoc Hnth.
  apply (Hsel (Z.of_nat (1 + i)) (page_content (ExtractText v))).
  apply ingest_pdfs_ok_iff in Hok as (_ & Hall & _).
  rewrite forallb_forall in Hall. specialize (Hall f Hf).
  apply extract_ok_valid in Hall. unfold valid_pdf in Hall.
  unfold extract_pages. rewrite Hdoc in *. simpl in Hall. simpl PdfReader.
  cbv iota. change 1%Z with (Z.of_nat 1).
  rewrite (extract_loop_valid pages 1 Hall). cbn [fst].
  now apply combine_numbered_In.
Qed.

Lemma ingest_round_trip_witness :
  NoDup (map fst
    [(lit "b.pdf"%string,
      Regular (Document [ExtractText (Some (lit " x "%string))]));
     (lit "a.pdf"%string,
      Regular (Document [ExtractText None;
                         ExtractText (Some (lit "two  "%string))]))])
  /\ select_content
       (db (fst (ingest_pdfs no_fault
          (Some (Directory
            [(lit "b.pdf"%string,
              Regular (Document [ExtractText (Some (lit " x "%string))]));
             (lit "a.pdf"%string,
              Regular (Document [ExtractText None;
                         ExtractText (Some (lit "two  "%string))]))]))
          5 (mkWorld NoDatabase []))))
       (lit "a.pdf"%string, 2%Z)
     = [Some (lit "two"%string)].
Proof.
  split.
  - repeat constructor; simpl; intuition discriminate.
  - exact (proj1 (ingest_round_trip no_fault
      [(lit "b.pdf"%string,
        Regular (Document [ExtractText (Some (lit " x "%string))]));
       (lit "a.pdf"%string,
        Regular (Document [ExtractText None;
                           ExtractText (Some (lit "two  "%string))]))]
      5 (mkWorld NoDatabase [])
      (NoDup_cons _
         (fun H : In (lit "b.pdf"%string) [lit "a.pdf"%string] =>
            match H with
            | or_introl E => ltac:(discriminate E)
            | or_intror F => F
            end)
         (NoDup_cons _ (fun H : In _ [] => H) (NoDup_nil _)))
      eq_refl
      (lit "a.pdf"%string,
       Regular (Document [ExtractText None;
                          ExtractText (Some (lit "two  "%string))]))
      (or_introl eq_refl))
      2%Z (lit "two"%string) (or_intror (or_introl eq_refl))).
Defined.

(** C2. With a table whose keys are unique, a run of [ingest_pdfs] that
    ended normally leaves a table whose keys are unique, and a second run on
    the same directory leaves the rows of the table exactly as the first one
    did, whether or not a statement of the second run fails: every key of
    the run selects one row, so a row is replaced and never doubled. *)
Theorem ingest_twice_same_table (env1 env2 : faults)
  (source_dir : option node) (limit : Z) (w : world) :
  unique_keys (stored_rows (db w)) ->
  let once := ingest_pdfs env1 source_dir limit w in
  let twice := ingest_pdfs env2 source_dir limit (fst once) in
  snd once = Ok tt ->
  stored_rows (db (fst twice)) = stored_rows (db (fst once))
  /\ unique_keys (stored_rows (db (fst once)))
  /\ unique_keys (stored_rows (db (fst twice)))
  /\ (forall rec,
        In rec (records_of (collect_pdf_files source_dir limit)) ->
        length (rows_with (row_key (bind_row rec))
                  (stored_rows (db (fst twice)))) = 1)
  /\ (forall (r : row) (t : table),
        unique_keys t ->
        unique_keys (insert_or_replace r t)
        /\ rows_with (row_key r) (insert_or_replace r t) = [r]).
Proof.
  intros Huniq once twice Hok.
  set (rows := map bind_row (records_of (collect_pdf_files source_dir limit))).
  assert (Honce : db (fst once)
                  = Database (Some (upsert_all rows (stored_rows (db w))))).
  { apply ingest_pdfs_ok_db. exact Hok. }
  assert (Hsame : stored_rows (db (fst twice)) = stored_rows (db (fst once))).
  { unfold twice. rewrite ingest_pdfs_run.
    apply ingest_pdfs_ok_iff in Hok as (Hne & Hall & _).
    destruct (collect_pdf_files source_dir limit) as [|f rest] eqn:Hfiles;
      [congruence|].
    rewrite Hall. cbn [fst db].
    destruct (fault_free env2 (records_of (f :: rest))) eqn:Hff.
    - rewrite (store_fault_free _ _ _ Hff). rewrite Honce.
      cbn [fst stored_rows]. apply upsert_all_idem.
    - destruct (store_faulty env2 (records_of (f :: rest)) (db (fst once))
                  Hff) as (d' & -> & Hrows).
      exact Hrows. }
  assert (Hu : unique_keys (stored_rows (db (fst once)))).
  { rewrite Honce. cbn [stored_rows]. now apply upsert_all_unique. }
  split; [exact Hsame|].
  split; [exact Hu|].
  split; [now rewrite Hsame|].
  split.
  - intros rec Hrec. rewrite Hsame, Honce. cbn [stored_rows].
    destruct (rows_with_upsert_has (row_key (bind_row rec)) rows
                (stored_rows (db w))) as (x & _ & _ & ->).
    + apply in_map. now apply in_map.
    + reflexivity.
  - intros r t Ht. split; [now apply insert_or_replace_unique|].
    now rewrite rows_with_insert, key_eqb_refl.
Qed.

Lemma ingest_twice_same_table_witness :
  unique_keys
    (stored_rows (Database (Some [mkRow (lit "a.pdf"%string) 1 None])))
  /\ stored_rows
       (db (fst (ingest_pdfs no_fault
          (Some (Directory
             [(lit "a.pdf"%string,
               Regular (Document [ExtractText (Some (lit "x"%string))]))]))
          5
          (fst (ingest_pdfs no_fault
             (Some (Directory
                [(lit "a.pdf"%string,
                  Regular (Document [ExtractText (Some (lit "x"%string))]))]))
             5
             (mkWorld
                (Database (Some [mkRow (lit "a.pdf"%string) 1 None]))
                []))))))
     = [mkRow (lit "a.pdf"%string) 1 (Some (lit "x"%string))].
Proof.
  split.
  - repeat constructor. intros [].
  - rewrite (proj1 (ingest_twice_same_table no_fault no_fault
      (Some (Directory
         [(lit "a.pdf"%string,
           Regular (Document [ExtractText (Some (lit "x"%string))]))]))
      5
      (mkWorld (Database (Some [mkRow (lit "a.pdf"%string) 1 None])) [])
      (NoDup_cons _ (fun H : In _ [] => H) (NoDup_nil _))
      eq_refl)).
    reflexivity.
Defined.

(* ===================================================================== *)
(** ** Scenarios                                                          *)
(* ===================================================================== *)

(** Three files of 2, 0 and 5 pages with limit 5 give a table of 7 rows. *)
Example scenario_three_files_seven_rows :
  length
    (stored_rows
       (db (fst (ingest_pdfs no_fault
          (Some (Directory
             [(lit "a.pdf"%string,
               Regular (Document (repeat (ExtractText None) 2)));
              (lit "b.pdf"%string, Regular (Document []));
              (lit "c.pdf"%string,
               Regular (Document (repeat (ExtractText None) 5)))]))
          5 (mkWorld NoDatabase [])))))
  = 7.
Proof. reflexivity. Qed.

(** With limit 2 and five files, the two smallest names are ingested. *)
Example scenario_limit_two_of_five :
  new_calls (mkWorld NoDatabase [])
    (fst (ingest_pdfs no_fault
       (Some (Directory
          [(lit "e.pdf"%string, Regular (Document []));
           (lit "b.pdf"%string, Regular (Document []));
           (lit "d.pdf"%string, Regular (Document []));
           (lit "a.pdf"%string, Regular (Document []));
           (lit "c.pdf"%string, Regular (Document []))]))
       2 (mkWorld NoDatabase [])))
  = [CallCollect 2; CallExtract (lit "a.pdf"%string);
     CallExtract (lit "b.pdf"%string); CallStore []].
Proof. reflexivity. Qed.

(** A page whose text changed replaces the row of the earlier run. *)
Example scenario_changed_page_replaces_row :
  stored_rows
    (db (fst (ingest_pdfs no_fault
       (Some (Directory
          [(lit "a.pdf"%string,
            Regular (Document [ExtractText (Some (lit "new"%string))]))]))
       5
       (fst (ingest_pdfs no_fault
          (Some (Directory
             [(lit "a.pdf"%string,
               Regular (Document [ExtractText (Some (lit "old"%string))]))]))
          5 (mkWorld NoDatabase []))))))
  = [mkRow (lit "a.pdf"%string) 1 (Some (lit "new"%string))].
Proof. reflexivity. Qed.

(** A failing statement in the middle of the batch leaves the rows alone. *)
Example scenario_failed_batch_keeps_rows :
  store_pages_in_db
    (fun op => match op with OpInsert 1 => true | _ => false end)
    [(lit "a.pdf"%string, 1%Z, lit "new"%string);
     (lit "a.pdf"%string, 2%Z, lit "more"%string)]
    (Database (Some [mkRow (lit "a.pdf"%string) 1 (Some (lit "old"%string))]))
  = (Database (Some [mkRow (lit "a.pdf"%string) 1 (Some (lit "old"%string))]),
     Raise SqliteError).
Proof. reflexivity. Qed.

(* ===================================================================== *)
(** ** More on extract_pages                                              *)
(* ===================================================================== *)

Lemma lstrip_all_space (s : str) :
  forallb isspace s = true -> lstrip s = [].
Proof.
  induction s as [|c s IH]; simpl; [reflexivity|].
  intros H. apply andb_true_iff in H as [-> H]. now apply IH.
Qed.

(** Trimming leaves nothing exactly when there was only white space. *)
Lemma strip_nil_iff (s : str) :
  strip s = [] <-> forallb isspace s = true.
Proof.
  split.
  - intros H. destruct (strip_split s) as (a & b & Hs & Ha & Hb).
    rewrite Hs, H, !forallb_app, Ha, Hb. reflexivity.
  - intros H. unfold strip. now rewrite (lstrip_all_space s H).
Qed.

Lemma strip_first_nonspace (s : str) (x : N) :
  hd_error (strip s) = Some x -> isspace x = false.
Proof.
  unfold strip.
  destruct (lstrip_head s) as [H | (c & t & H & Hc)]; rewrite H.
  - discriminate.
  - rewrite (rstrip_cons_nonspace c t Hc). simpl. congruence.
Qed.

Lemma strip_last_nonspace (s : str) (x : N) :
  hd_error (rev (strip s)) = Some x -> isspace x = false.
Proof.
  unfold strip, rstrip. rewrite rev_involutive.
  destruct (lstrip_head (rev (lstrip s))) as [H | (c & t & H & Hc)];
    rewrite H; simpl; congruence.
Qed.

(** Each pair a generator yields comes from a page of the document: its
    number is the position of the page and its content the trimmed text. *)
Lemma extract_loop_In (pages : list page) :
  forall (s : Z) (pn : Z) (c : str),
    In (pn, c) (fst (extract_loop (enumerate s pages))) ->
    exists i v,
      nth_error pages i = Some (ExtractText v)
      /\ pn = (s + Z.of_nat i)%Z
      /\ c = strip (or_empty v).
Proof.
  induction pages as [|p pages IH]; intros s pn c Hin; simpl in Hin;
    [destruct Hin|].
  destruct p as [v|]; [|destruct Hin].
  destruct (extract_loop (enumerate (s + 1) pages)) as [ys e] eqn:Hrest.
  simpl in Hin. destruct Hin as [Heq | Hin].
  - injection Heq as <- <-. exists 0, v. simpl.
    repeat split. lia.
  - destruct (IH (s + 1)%Z pn c) as (i & w & Hnth & Hpn & Hc).
    { now rewrite Hrest. }
    exists (S i), w. simpl. repeat split; auto. lia.
Qed.

Lemma extract_loop_stops (before after : list page) (s : nat) :
  forallb page_ok before = true ->
  extract_loop (enumerate (Z.of_nat s) (before ++ ExtractRaises :: after))
  = (combine (map Z.of_nat (seq s (length before)))
             (map page_content before),
     Some PdfReadError).
Proof.
  revert s. induction before as [|p before IH]; intros s Hok; simpl.
  - reflexivity.
  - simpl in Hok. apply andb_true_iff in Hok as [Hp Hps].
    destruct p as [v|]; [|discriminate].
    replace (Z.of_nat s + 1)%Z with (Z.of_nat (S s)) by lia.
    now rewrite (IH (S s) Hps).
Qed.

(** X1. When [extract_text] raises on a page, after the pages before it
    were extracted, the generator has yielded exactly the pairs of those
    pages, numbered from 1, and then raises: the pages after the failing
    one are never reached. *)
Theorem extract_pages_stops_at_first_failure (before after : list page) :
  forallb page_ok before = true ->
  extract_pages (Regular (Document (before ++ ExtractRaises :: after)))
  = (combine (map Z.of_nat (seq 1 (length before)))
             (map page_content before),
     Some PdfReadError)
  /\ length (fst (extract_pages
                    (Regular (Document (before ++ ExtractRaises :: after)))))
     = length before.
Proof.
  intros Hok.
  assert (H : extract_pages
                (Regular (Document (before ++ ExtractRaises :: after)))
              = (combine (map Z.of_nat (seq 1 (length before)))
                         (map page_content before),
                 Some PdfReadError)).
  { unfold extract_pages. simpl PdfReader. cbv iota.
    change 1%Z with (Z.of_nat 1). now apply extract_loop_stops. }
  split; [exact H|].
  rewrite H. cbn [fst].
  rewrite length_combine, !length_map, length_seq. apply Nat.min_id.
Qed.

Lemma extract_pages_stops_at_first_failure_witness :
  forallb page_ok [ExtractText (Some (lit " a"%string))] = true
  /\ extract_pages
       (Regular (Document
          ([ExtractText (Some (lit " a"%string))]
           ++ ExtractRaises :: [ExtractText None])))
     = ([(1%Z, lit "a"%string)], Some PdfReadError).
Proof.
  split; [reflexivity|].
  exact (proj1 (extract_pages_stops_at_first_failure
                  [ExtractText (Some (lit " a"%string))]
                  [ExtractText None] eq_refl)).
Defined.

(** X2. The content of every pair a generator yields is the text of the
    page at that number with a run of white space taken off each end and
    nothing else changed: the content neither starts nor ends with a
    white-space character. *)
Theorem extract_pages_content_trims_only (f : node) (pn : Z) (c : str) :
  In (pn, c) (fst (extract_pages f)) ->
  exists pages i v a b,
    PdfReader f = Some pages
    /\ pn = Z.of_nat (1 + i)
    /\ nth_error pages i = Some (ExtractText v)
    /\ or_empty v = a ++ c ++ b
    /\ forallb isspace a = true
    /\ forallb isspace b = true
    /\ (forall x, hd_error c = Some x -> isspace x = false)
    /\ (forall x, hd_error (rev c) = Some x -> isspace x = false).
Proof.
  unfold extract_pages. destruct (PdfReader f) as [pages|]; [|intros []].
  intros Hin.
  apply extract_loop_In in Hin as (i & v & Hnth & Hpn & Hc).
  destruct (strip_split (or_empty v)) as (a & b & Hs & Ha & Hb).
  exists pages, i, v, a, b. subst c.
  repeat split; auto.
  - lia.
  - apply strip_first_nonspace.
  - apply strip_last_nonspace.
Qed.

Lemma extract_pages_content_trims_only_witness :
  In (2%Z, lit "b  c"%string)
     (fst (extract_pages
             (Regular (Document
                [ExtractText None;
                 ExtractText (Some (lit "  b  c "%string))]))))
  /\ exists pages i v a b,
       PdfReader (Regular (Document
                    [ExtractText None;
                     ExtractText (Some (lit "  b  c "%string))]))
       = Some pages
       /\ 2%Z = Z.of_nat (1 + i)
       /\ nth_error pages i = Some (ExtractText v)
       /\ or_empty v = a ++ lit "b  c"%string ++ b
       /\ forallb isspace a = true
       /\ forallb isspace b = true
       /\ (forall x, hd_error (lit "b  c"%string) = Some x ->
             isspace x = false)
       /\ (forall x, hd_error (rev (lit "b  c"%string)) = Some x ->
             isspace x = false).
Proof.
  split; [right; now left|].
  apply (extract_pages_content_trims_only
           (Regular (Document
              [ExtractText None;
               ExtractText (Some (lit "  b  c "%string))]))
           2%Z (lit "b  c"%string)).
  right. now left.
Defined.

(** X3. In a document whose pages all extract, the content yielded for a
    page is the empty string exactly when [extract_text] gave None, the
    empty string or white space only. *)
Theorem extract_pages_blank_page (pages : list page) (i : nat)
  (v : option str) :
  forallb page_ok pages = true ->
  nth_error pages i = Some (ExtractText v) ->
  exists c,
    nth_error (fst (extract_pages (Regular (Document pages)))) i
    = Some (Z.of_nat (1 + i), c)
    /\ (c = [] <->
        v = None \/ exists s, v = Some s /\ forallb isspace s = true).
Proof.
  intros Hok Hnth.
  exists (strip (or_empty v)). split.
  - unfold extract_pages. simpl PdfReader. cbv iota.
    change 1%Z with (Z.of_nat 1).
    rewrite (extract_loop_valid pages 1 Hok). cbn [fst].
    clear Hok. generalize 1. revert i Hnth.
    induction pages as [|p pages IH]; intros [|i] Hnth s; simpl in *;
      try discriminate.
    + injection Hnth as ->. simpl. now rewrite Nat.add_0_r.
    + rewrite (IH i Hnth (S s)). do 3 f_equal. lia.
  - rewrite strip_nil_iff. destruct v as [[|x s]|]; simpl.
    + split; [intros _; right; now exists [] | reflexivity].
    + split.
      * intros H. right. now exists (x :: s).
      * intros [H | (s' & H & Hs)]; [discriminate|].
        injection H as <-. exact Hs.
    + split; [now left | reflexivity].
Qed.

Lemma extract_pages_blank_page_witness :
  forallb page_ok [ExtractText (Some (lit "x"%string));
                   ExtractText (Some [32; 10; 9]%N)] = true
  /\ nth_error [ExtractText (Some (lit "x"%string));
                ExtractText (Some [32; 10; 9]%N)] 1
     = Some (ExtractText (Some [32; 10; 9]%N))
  /\ exists c,
       nth_error
         (fst (extract_pages
                 (Regular (Document
                    [ExtractText (Some (lit "x"%string));
                     ExtractText (Some [32; 10; 9]%N)])))) 1
       = Some (Z.of_nat (1 + 1), c)
       /\ (c = [] <->
           Some [32; 10; 9]%N = None
           \/ exists s, Some [32; 10; 9]%N = Some s
                        /\ forallb isspace s = true).
Proof.
  split; [reflexivity|]. split; [reflexivity|].
  exact (extract_pages_blank_page
           [ExtractText (Some (lit "x"%string));
            ExtractText (Some [32; 10; 9]%N)] 1 (Some [32; 10; 9]%N)
           eq_refl eq_refl).
Defined.

(* ===================================================================== *)
(** ** More on collect_pdf_files                                          *)
(* ===================================================================== *)

Lemma filter_Permutation (A : Type) (keep : A -> bool) (xs ys : list A) :
  Permutation xs ys -> Permutation (filter keep xs) (filter keep ys).
Proof.
  induction 1 as [| x xs ys _ IH | x y xs | xs ys zs _ IH1 _ IH2]; simpl.
  - constructor.
  - destruct (keep x); [now constructor | exact IH].
  - destruct (keep x), (keep y); try reflexivity. apply perm_swap.
  - now transitivity (filter keep ys).
Qed.

Lemma same_name_same_path (l : list path) (p q : path) :
  NoDup (map name l) -> In p l -> In q l -> name p = name q -> p = q.
Proof.
  induction l as [|a l IH]; simpl; intros Hnd Hp Hq Hname; [destruct Hp|].
  apply NoDup_cons_iff in Hnd as [Hfresh Hnd].
  destruct Hp as [-> | Hp], Hq as [-> | Hq]; auto.
  - exfalso. apply Hfresh. rewrite Hname. now apply in_map.
  - exfalso. apply Hfresh. rewrite <- Hname. now apply in_map.
Qed.

(** A listing with distinct names has one ascending arrangement. *)
Lemma ascending_unique (l1 : list path) :
  forall l2 : list path,
    NoDup (map name l1) ->
    StronglySorted path_le l1 -> StronglySorted path_le l2 ->
    Permutation l1 l2 -> l1 = l2.
Proof.
  induction l1 as [|a l1 IH]; intros l2 Hnd Hs1 Hs2 Hperm.
  - apply Permutation_nil in Hperm. now subst.
  - destruct l2 as [|b l2].
    { apply Permutation_sym, Permutation_nil in Hperm. discriminate. }
    inversion Hs1 as [|? ? Hs1' Ha]; subst.
    inversion Hs2 as [|? ? Hs2' Hb]; subst.
    rewrite Forall_forall in Ha, Hb.
    assert (Hab : a = b).
    { assert (Hbin : In b (a :: l1))
        by (apply (Permutation_in _ (Permutation_sym Hperm)); now left).
      assert (Hain : In a (b :: l2))
        by (apply (Permutation_in _ Hperm); now left).
      destruct Hbin as [E | Hbin]; [exact E|].
      destruct Hain as [E | Hain]; [now symmetry|].
      apply (same_name_same_path (a :: l1)); auto;
        [now left | now right|].
      apply str_le_antisym; [apply (Ha b Hbin) | apply (Hb a Hain)]. }
    subst b. f_equal.
    apply IH; auto.
    + simpl in Hnd. now apply NoDup_cons_iff in Hnd.
    + now apply Permutation_cons_inv in Hperm.
Qed.

(** X4. The order in which the directory hands out its entries does not
    matter: two listings of the same entries, whose names are distinct,
    give the same result for every limit. *)
Theorem collect_pdf_files_order_independent
  (entries1 entries2 : list (str * node)) (limit : Z) :
  NoDup (map fst entries1) ->
  Permutation entries1 entries2 ->
  collect_pdf_files (Some (Directory entries1)) limit
  = collect_pdf_files (Some (Directory entries2)) limit.
Proof.
  intros Hnd Hperm. unfold collect_pdf_files. f_equal.
  apply ascending_unique.
  - apply (Permutation_NoDup
             (Permutation_sym (Permutation_map name (sorted_perm _)))).
    simpl. now apply NoDup_map_filter.
  - apply sorted_StronglySorted.
  - apply sorted_StronglySorted.
  - rewrite !sorted_perm. simpl. now apply filter_Permutation.
Qed.

Lemma collect_pdf_files_order_independent_witness :
  NoDup (map fst [(lit "b.pdf"%string, Regular Unparseable);
                  (lit "a.pdf"%string, Regular (Document []))])
  /\ Permutation
       [(lit "b.pdf"%string, Regular Unparseable);
        (lit "a.pdf"%string, Regular (Document []))]
       [(lit "a.pdf"%string, Regular (Document []));
        (lit "b.pdf"%string, Regular Unparseable)]
  /\ collect_pdf_files
       (Some (Directory [(lit "b.pdf"%string, Regular Unparseable);
                         (lit "a.pdf"%string, Regular (Document []))])) 1
     = collect_pdf_files
         (Some (Directory [(lit "a.pdf"%string, Regular (Document []));
                           (lit "b.pdf"%string, Regular Unparseable)])) 1.
Proof.
  assert (Hnd : NoDup (map fst [(lit "b.pdf"%string, Regular Unparseable);
                                (lit "a.pdf"%string, Regular (Document []))])).
  { repeat constructor; simpl; intuition discriminate. }
  split; [exact Hnd|]. split; [apply perm_swap|].
  exact (collect_pdf_files_order_independent
           [(lit "b.pdf"%string, Regular Unparseable);
            (lit "a.pdf"%string, Regular (Document []))]
           [(lit "a.pdf"%string, Regular (Document []));
            (lit "b.pdf"%string, Regular Unparseable)]
           1 Hnd (perm_swap _ _ _)).
Defined.

(** X5. A smaller limit gives a prefix of what a larger one gives, and a
    limit of at least the number of matching entries gives all of them. *)
Theorem collect_pdf_files_limit_monotone (source_dir : option node)
  (small large : Z) :
  (0 <= small <= large)%Z ->
  collect_pdf_files source_dir small
  = firstn (Z.to_nat small) (collect_pdf_files source_dir large)
  /\ ((Z.of_nat (length (glob_pdf source_dir)) <= large)%Z ->
      collect_pdf_files source_dir large = sorted (glob_pdf source_dir)
      /\ Permutation (collect_pdf_files source_dir large)
                     (glob_pdf source_dir)).
Proof.
  intros [Hs Hl]. unfold collect_pdf_files.
  rewrite !slice_to_nonneg by lia.
  split.
  - rewrite firstn_firstn. f_equal. lia.
  - intros Hall.
    assert (H : firstn (Z.to_nat large) (sorted (glob_pdf source_dir))
                = sorted (glob_pdf source_dir)).
    { apply firstn_all2. rewrite sorted_length. lia. }
    rewrite H. split; [reflexivity | apply sorted_perm].
Qed.

Lemma collect_pdf_files_limit_monotone_witness :
  (0 <= 1 <= 5)%Z
  /\ collect_pdf_files
       (Some (Directory [(lit "b.pdf"%string, Regular Unparseable);
                         (lit "a.pdf"%string, Regular Unparseable)])) 1
     = firstn (Z.to_nat 1)
         (collect_pdf_files
            (Some (Directory [(lit "b.pdf"%string, Regular Unparseable);
                              (lit "a.pdf"%string, Regular Unparseable)])) 5).
Proof.
  split; [lia|].
  exact (proj1 (collect_pdf_files_limit_monotone
                  (Some (Directory
                     [(lit "b.pdf"%string, Regular Unparseable);
                      (lit "a.pdf"%string, Regular Unparseable)]))
                  1 5 ltac:(lia))).
Defined.

Lemma ascending_strict (l : list path) :
  NoDup (map name l) -> StronglySorted path_le l ->
  StronglySorted path_lt l.
Proof.
  intros Hnd Hs. induction Hs as [|a l Hs IH Ha]; [constructor|].
  simpl in Hnd. apply NoDup_cons_iff in Hnd as [Hfresh Hnd].
  constructor; [now apply IH|].
  rewrite Forall_forall in *. intros q Hq.
  specialize (Ha q Hq). unfold path_le, str_le in Ha. unfold path_lt.
  destruct (str_ltb_trichotomy (name a) (name q)) as [H | [H | H]].
  - exact H.
  - exfalso. apply Hfresh. rewrite H. now apply in_map.
  - congruence.
Qed.

(** X6. When the names in the directory are distinct, the names of the
    result are strictly ascending: no path is returned twice. *)
Theorem collect_pdf_files_strictly_ascending (entries : list (str * node))
  (limit : Z) :
  NoDup (map fst entries) ->
  StronglySorted path_lt
    (collect_pdf_files (Some (Directory entries)) limit)
  /\ NoDup (collect_pdf_files (Some (Directory entries)) limit).
Proof.
  intros Hnd.
  pose proof (collect_names_NoDup entries limit Hnd) as Hnames.
  split.
  - apply ascending_strict; [exact Hnames|].
    unfold collect_pdf_files.
    destruct (slice_to_firstn _
                (sorted (glob_pdf (Some (Directory entries)))) limit)
      as (n & ->).
    apply firstn_StronglySorted, sorted_StronglySorted.
  - now apply NoDup_map_inv in Hnames.
Qed.

Lemma collect_pdf_files_strictly_ascending_witness :
  NoDup (map fst [(lit "b.pdf"%string, Regular Unparseable);
                  (lit "a.pdf"%string, Regular Unparseable)])
  /\ NoDup (collect_pdf_files
              (Some (Directory
                 [(lit "b.pdf"%string, Regular Unparseable);
                  (lit "a.pdf"%string, Regular Unparseable)])) 5).
Proof.
  assert (Hnd : NoDup (map fst [(lit "b.pdf"%string, Regular Unparseable);
                                (lit "a.pdf"%string, Regular Unparseable)])).
  { repeat constructor; simpl; intuition discriminate. }
  split; [exact Hnd|].
  exact (proj2 (collect_pdf_files_strictly_ascending
                  [(lit "b.pdf"%string, Regular Unparseable);
                   (lit "a.pdf"%string, Regular Unparseable)] 5 Hnd)).
Defined.

(* ===================================================================== *)
(** ** More on store_pages_in_db                                          *)
(* ===================================================================== *)

Lemma upsert_all_app (rows1 rows2 : list row) (t : table) :
  upsert_all (rows1 ++ rows2) t = upsert_all rows2 (upsert_all rows1 t).
Proof. unfold upsert_all. apply fold_left_app. Qed.

Lemma store_rows (env : faults) (records : list record) (d : database) :
  stored_rows (fst (store_pages_in_db env records d))
  = if fault_free env records
    then upsert_all (map bind_row records) (stored_rows d)
    else stored_rows d.
Proof.
  destruct (fault_free env records) eqn:Hff.
  - now rewrite (store_fault_free env records d Hff).
  - destruct (store_faulty env records d Hff) as (d' & -> & Hrows).
    exact Hrows.
Qed.

(** X7. Rows whose key is not a key of the batch are left as they are,
    whether the call ends normally or raises: nothing is ever deleted
    except by a row of the same key. *)
Theorem store_pages_in_db_keeps_other_rows (env : faults)
  (records : list record) (d : database) (k : key) :
  ~ In k (map row_key (map bind_row records)) ->
  rows_with k (stored_rows (fst (store_pages_in_db env records d)))
  = rows_with k (stored_rows d)
  /\ select_content (fst (store_pages_in_db env records d)) k
     = select_content d k.
Proof.
  intros Hk.
  assert (H : rows_with k
                (stored_rows (fst (store_pages_in_db env records d)))
              = rows_with k (stored_rows d)).
  { rewrite store_rows. destruct (fault_free env records); [|reflexivity].
    now apply rows_with_upsert_other. }
  split; [exact H|]. unfold select_content. now rewrite H.
Qed.

Lemma store_pages_in_db_keeps_other_rows_witness :
  ~ In (lit "a.pdf"%string, 2%Z)
       (map row_key (map bind_row [(lit "a.pdf"%string, 1%Z, [])]))
  /\ select_content
       (fst (store_pages_in_db no_fault [(lit "a.pdf"%string, 1%Z, [])]
               (Database (Some [mkRow (lit "a.pdf"%string) 2
                                  (Some (lit "old"%string))]))))
       (lit "a.pdf"%string, 2%Z)
     = [Some (lit "old"%string)].
Proof.
  assert (H : ~ In (lit "a.pdf"%string, 2%Z)
                (map row_key (map bind_row [(lit "a.pdf"%string, 1%Z, [])]))).
  { simpl. intros [E | []]. discriminate E. }
  split; [exact H|].
  rewrite (proj2 (store_pages_in_db_keeps_other_rows no_fault
                    [(lit "a.pdf"%string, 1%Z, [])]
                    (Database (Some [mkRow (lit "a.pdf"%string) 2
                                       (Some (lit "old"%string))]))
                    (lit "a.pdf"%string, 2%Z) H)).
  reflexivity.
Defined.

(** X8. When a batch holds several records of one key, the last of them is
    the one stored: after a call that ended normally the key selects one
    row, with the content of the last record of that key. *)
Theorem store_pages_in_db_last_record_wins (env : faults)
  (before : list record) (rec : record) (after : list record)
  (d : database) :
  fault_free env (before ++ rec :: after) = true ->
  ~ In (row_key (bind_row rec)) (map row_key (map bind_row after)) ->
  select_content
    (fst (store_pages_in_db env (before ++ rec :: after) d))
    (row_key (bind_row rec))
  = [Some (snd rec)].
Proof.
  intros Hff Hlast. unfold select_content.
  rewrite store_rows, Hff.
  rewrite map_app. simpl map. rewrite upsert_all_app. simpl upsert_all.
  change (fold_left (fun acc r => insert_or_replace r acc)
            (map bind_row after)
            (insert_or_replace (bind_row rec)
               (upsert_all (map bind_row before) (stored_rows d))))
    with (upsert_all (map bind_row after)
            (insert_or_replace (bind_row rec)
               (upsert_all (map bind_row before) (stored_rows d)))).
  rewrite rows_with_upsert_other by assumption.
  rewrite rows_with_insert, key_eqb_refl.
  now destruct rec as [[fn pn] c].
Qed.

Lemma store_pages_in_db_last_record_wins_witness :
  fault_free no_fault
    ([(lit "a.pdf"%string, 1%Z, lit "first"%string)]
     ++ (lit "a.pdf"%string, 1%Z, lit "second"%string) :: []) = true
  /\ ~ In (row_key (bind_row (lit "a.pdf"%string, 1%Z, lit "second"%string)))
          (map row_key (map bind_row []))
  /\ select_content
       (fst (store_pages_in_db no_fault
               ([(lit "a.pdf"%string, 1%Z, lit "first"%string)]
                ++ (lit "a.pdf"%string, 1%Z, lit "second"%string) :: [])
               NoDatabase))
       (row_key (bind_row (lit "a.pdf"%string, 1%Z, lit "second"%string)))
     = [Some (lit "second"%string)].
Proof.
  split; [reflexivity|]. split; [intros []|].
  exact (store_pages_in_db_last_record_wins no_fault
           [(lit "a.pdf"%string, 1%Z, lit "first"%string)]
           (lit "a.pdf"%string, 1%Z, lit "second"%string) []
           NoDatabase eq_refl (fun H : False => H)).
Defined.

(** X9. The table is created before the transaction and stays when the
    batch is rolled back. A failed [connect] leaves the database as it
    was, not created if it was absent; once [connect] has passed the file
    exists whatever follows, and once [CREATE TABLE] has passed the table
    exists, also when a later statement fails. *)
Theorem store_pages_in_db_creation_is_kept (env : faults)
  (records : list record) (d : database) :
  (env OpConnect = true ->
     store_pages_in_db env records d = (d, Raise SqliteError))
  /\ (env OpConnect = false ->
        exists t,
          fst (store_pages_in_db env records d) = Database t
          /\ (env OpCreateTable = false ->
                t = Some (stored_rows
                            (fst (store_pages_in_db env records d))))).
Proof.
  rewrite store_run. split.
  - now intros ->.
  - intros ->.
    destruct (env OpCreateTable).
    { eexists. split; [reflexivity | discriminate]. }
    destruct (fault_free env records); eexists; split; reflexivity.
Qed.

Lemma store_pages_in_db_creation_is_kept_witness :
  (fun op => match op with OpInsert 0 => true | _ => false end) OpConnect
  = false
  /\ store_pages_in_db
       (fun op => match op with OpInsert 0 => true | _ => false end)
       [(lit "a.pdf"%string, 1%Z, [])] NoDatabase
     = (Database (Some []), Raise SqliteError)
  /\ exists t,
       fst (store_pages_in_db
              (fun op => match op with OpInsert 0 => true | _ => false end)
              [(lit "a.pdf"%string, 1%Z, [])] NoDatabase)
       = Database t
       /\ ((fun op => match op with OpInsert 0 => true | _ => false end)
             OpCreateTable = false ->
           t = Some (stored_rows
                       (fst (store_pages_in_db
                               (fun op => match op with
                                          | OpInsert 0 => true
                                          | _ => false
                                          end)
                               [(lit "a.pdf"%string, 1%Z, [])]
                               NoDatabase)))).
Proof.
  split; [reflexivity|]. split; [reflexivity|].
  exact (proj2 (store_pages_in_db_creation_is_kept
                  (fun op => match op with OpInsert 0 => true | _ => false end)
                  [(lit "a.pdf"%string, 1%Z, [])] NoDatabase) eq_refl).
Defined.

(** X10. Two calls that end normally, one after the other, leave the table
    that one call with the two batches joined leaves. *)
Theorem store_pages_in_db_composes (env1 env2 : faults)
  (records1 records2 : list record) (d : database) :
  fault_free env1 records1 = true ->
  fault_free env2 records2 = true ->
  fst (store_pages_in_db env2 records2
         (fst (store_pages_in_db env1 records1 d)))
  = fst (store_pages_in_db no_fault (records1 ++ records2) d).
Proof.
  intros H1 H2.
  rewrite (store_fault_free env1 records1 d H1). cbn [fst].
  rewrite (store_fault_free env2 records2 _ H2). cbn [fst stored_rows].
  rewrite (store_fault_free no_fault (records1 ++ records2) d).
  - cbn [fst]. now rewrite map_app, upsert_all_app.
  - unfold fault_free, no_fault. simpl.
    rewrite (proj2 (forallb_forall _ _)) by reflexivity.
    now destruct (records1 ++ records2).
Qed.

Lemma store_pages_in_db_composes_witness :
  fault_free no_fault [(lit "a.pdf"%string, 1%Z, lit "x"%string)] = true
  /\ fault_free no_fault [(lit "a.pdf"%string, 1%Z, lit "y"%string)] = true
  /\ fst (store_pages_in_db no_fault
            [(lit "a.pdf"%string, 1%Z, lit "y"%string)]
            (fst (store_pages_in_db no_fault
                    [(lit "a.pdf"%string, 1%Z, lit "x"%string)]
                    NoDatabase)))
     = fst (store_pages_in_db no_fault
              ([(lit "a.pdf"%string, 1%Z, lit "x"%string)]
               ++ [(lit "a.pdf"%string, 1%Z, lit "y"%string)])
              NoDatabase).
Proof.
  split; [reflexivity|]. split; [reflexivity|].
  exact (store_pages_in_db_composes no_fault no_fault
           [(lit "a.pdf"%string, 1%Z, lit "x"%string)]
           [(lit "a.pdf"%string, 1%Z, lit "y"%string)]
           NoDatabase eq_refl eq_refl).
Defined.

Lemma dedup_last_NoDup (rows : list row) :
  NoDup (map row_key rows) -> dedup_last rows = rows.
Proof.
  induction rows as [|r rows IH]; simpl; intros Hnd; [reflexivity|].
  apply NoDup_cons_iff in Hnd as [Hfresh Hnd].
  destruct (has_key (row_key r) rows) eqn:Hk.
  - apply has_key_map in Hk. contradiction.
  - now rewrite IH.
Qed.

Lemma has_key_Permutation (k : key) (rows1 rows2 : list row) :
  Permutation rows1 rows2 -> has_key k rows1 = has_key k rows2.
Proof.
  intros Hperm.
  destruct (has_key k rows1) eqn:H1, (has_key k rows2) eqn:H2;
    try reflexivity.
  - apply has_key_map in H1.
    apply (Permutation_in _ (Permutation_map row_key Hperm)) in H1.
    apply has_key_map in H1. congruence.
  - apply has_key_map in H2.
    apply (Permutation_in _
             (Permutation_sym (Permutation_map row_key Hperm))) in H2.
    apply has_key_map in H2. congruence.
Qed.

Lemma rows_with_at_most_one (k : key) (rows : list row) :
  NoDup (map row_key rows) -> length (rows_with k rows) <= 1.
Proof.
  induction rows as [|r rows IH]; simpl; intros Hnd; [lia|].
  apply NoDup_cons_iff in Hnd as [Hfresh Hnd].
  destruct (key_eqb (row_key r) k) eqn:Hk; [|now apply IH].
  apply key_eqb_eq in Hk. subst k. simpl.
  unfold rows_with. rewrite filter_none; [simpl; lia|].
  intros x Hx. apply key_eqb_neq. intros E.
  apply Hfresh. rewrite <- E. now apply in_map.
Qed.

Lemma short_Permutation_eq (A : Type) (xs ys : list A) :
  length xs <= 1 -> Permutation xs ys -> xs = ys.
Proof.
  intros Hlen Hperm. destruct xs as [|x [|x' xs]]; simpl in Hlen; [| |lia].
  - apply Permutation_nil in Hperm. now subst.
  - apply Permutation_length_1_inv in Hperm. now subst.
Qed.

(** X11. For a batch whose keys are distinct, the order of the records
    does not matter: two calls that end normally on the same records in
    different orders leave the same rows, up to their order, and every key
    selects the same content. *)
Theorem store_pages_in_db_batch_order (env1 env2 : faults)
  (records1 records2 : list record) (d : database) :
  NoDup (map row_key (map bind_row records1)) ->
  Permutation records1 records2 ->
  fault_free env1 records1 = true ->
  fault_free env2 records2 = true ->
  Permutation (stored_rows (fst (store_pages_in_db env1 records1 d)))
              (stored_rows (fst (store_pages_in_db env2 records2 d)))
  /\ forall k,
       select_content (fst (store_pages_in_db env1 records1 d)) k
       = select_content (fst (store_pages_in_db env2 records2 d)) k.
Proof.
  intros Hnd Hperm H1 H2.
  set (rows1 := map bind_row records1).
  set (rows2 := map bind_row records2).
  assert (Hrows : Permutation rows1 rows2) by now apply Permutation_map.
  assert (Hnd2 : NoDup (map row_key rows2)).
  { apply (Permutation_NoDup (Permutation_map row_key Hrows)). exact Hnd. }
  assert (Hold : filter (fun x => negb (has_key (row_key x) rows1))
                   (stored_rows d)
                 = filter (fun x => negb (has_key (row_key x) rows2))
                     (stored_rows d)).
  { apply filter_ext. intros x.
    now rewrite (has_key_Permutation (row_key x) rows1 rows2 Hrows). }
  rewrite !store_rows, H1, H2. fold rows1 rows2.
  rewrite !upsert_all_closed, Hold.
  rewrite (dedup_last_NoDup rows1 Hnd), (dedup_last_NoDup rows2 Hnd2).
  split; [now apply Permutation_app_head|].
  intros k. unfold select_content.
  rewrite !store_rows, H1, H2. fold rows1 rows2.
  rewrite !upsert_all_closed, Hold.
  rewrite (dedup_last_NoDup rows1 Hnd), (dedup_last_NoDup rows2 Hnd2).
  unfold rows_with. rewrite !filter_app. do 2 f_equal.
  apply short_Permutation_eq.
  - now apply rows_with_at_most_one.
  - now apply filter_Permutation.
Qed.

Lemma store_pages_in_db_batch_order_witness :
  NoDup (map row_key (map bind_row
           [(lit "a.pdf"%string, 1%Z, lit "x"%string);
            (lit "a.pdf"%string, 2%Z, lit "y"%string)]))
  /\ Permutation
       (stored_rows (fst (store_pages_in_db no_fault
          [(lit "a.pdf"%string, 1%Z, lit "x"%string);
           (lit "a.pdf"%string, 2%Z, lit "y"%string)] NoDatabase)))
       (stored_rows (fst (store_pages_in_db no_fault
          [(lit "a.pdf"%string, 2%Z, lit "y"%string);
           (lit "a.pdf"%string, 1%Z, lit "x"%string)] NoDatabase))).
Proof.
  assert (Hnd : NoDup (map row_key (map bind_row
                  [(lit "a.pdf"%string, 1%Z, lit "x"%string);
                   (lit "a.pdf"%string, 2%Z, lit "y"%string)]))).
  { repeat constructor; simpl; intuition discriminate. }
  split; [exact Hnd|].
  exact (proj1 (store_pages_in_db_batch_order no_fault no_fault
                  [(lit "a.pdf"%string, 1%Z, lit "x"%string);
                   (lit "a.pdf"%string, 2%Z, lit "y"%string)]
                  [(lit "a.pdf"%string, 2%Z, lit "y"%string);
                   (lit "a.pdf"%string, 1%Z, lit "x"%string)]
                  NoDatabase Hnd (perm_swap _ _ _) eq_refl eq_refl)).
Defined.

(* ===================================================================== *)
(** ** More on ingest_pdfs and main                                       *)
(* ===================================================================== *)

Lemma collect_pdf_files_not_a_directory (source_dir : option node)
  (limit : Z) :
  is_dir source_dir = false -> collect_pdf_files source_dir limit = [].
Proof.
  intros H. unfold collect_pdf_files.
  assert (Hglob : glob_pdf source_dir = []).
  { destruct source_dir as [[src | entries]|]; simpl in *;
      try reflexivity. discriminate. }
  rewrite Hglob. simpl.
  destruct (slice_to_firstn _ (@nil path) limit) as (n & ->).
  apply firstn_nil.
Qed.

(** X12. [ingest_pdfs] itself does not check its source directory: called
    on a path with nothing at it, or on a regular file, it lists nothing
    and raises [FileNotFoundError], not [NotADirectoryError], and leaves
    the database as it was. *)
Theorem ingest_pdfs_not_a_directory (env : faults)
  (source_dir : option node) (limit : Z) (w : world) :
  is_dir source_dir = false ->
  ingest_pdfs env source_dir limit w
  = (mkWorld (db w) (calls w ++ [CallCollect limit]),
     Raise FileNotFoundError).
Proof.
  intros H. rewrite ingest_pdfs_run.
  now rewrite (collect_pdf_files_not_a_directory source_dir limit H).
Qed.

Lemma ingest_pdfs_not_a_directory_witness :
  is_dir (Some (Regular (Document [ExtractText None]))) = false
  /\ ingest_pdfs no_fault (Some (Regular (Document [ExtractText None]))) 5
       (mkWorld NoDatabase [])
     = (mkWorld NoDatabase [CallCollect 5], Raise FileNotFoundError).
Proof.
  split; [reflexivity|].
  exact (ingest_pdfs_not_a_directory no_fault
           (Some (Regular (Document [ExtractText None]))) 5
           (mkWorld NoDatabase []) eq_refl).
Defined.

Lemma ingest_pdfs_rows (env : faults) (source_dir : option node)
  (limit : Z) (w : world) :
  stored_rows (db (fst (ingest_pdfs env source_dir limit w)))
  = stored_rows (db w)
  \/ stored_rows (db (fst (ingest_pdfs env source_dir limit w)))
     = upsert_all
         (map bind_row (records_of (collect_pdf_files source_dir limit)))
         (stored_rows (db w)).
Proof.
  rewrite ingest_pdfs_run.
  destruct (collect_pdf_files source_dir limit) as [|f rest];
    [now left|].
  destruct (forallb extract_ok (f :: rest)); [|now left].
  cbn [fst db]. rewrite store_rows.
  destruct (fault_free env (records_of (f :: rest))); auto.
Qed.

(** X13. A run touches only the keys it extracted. A key whose file is not
    listed, or whose page number the generator of its file did not yield,
    selects after the run what it selected before, whether the run ended
    normally or raised: the row of a page that is no longer in its file
    stays in the table. *)
Theorem ingest_pdfs_keeps_other_rows (env : faults)
  (source_dir : option node) (limit : Z) (w : world) (k : key) :
  (forall f, In f (collect_pdf_files source_dir limit) ->
     name f = fst k ->
     ~ In (snd k) (map fst (fst (extract_pages (snd f))))) ->
  select_content (db (fst (ingest_pdfs env source_dir limit w))) k
  = select_content (db w) k.
Proof.
  intros Hk. unfold select_content.
  destruct (ingest_pdfs_rows env source_dir limit w) as [-> | ->];
    [reflexivity|].
  rewrite rows_with_upsert_other; [reflexivity|].
  rewrite map_map, in_map_iff. intros (rec & Hkey & Hrec).
  apply records_of_In in Hrec as (f & y & Hf & Hy & ->).
  simpl in Hkey. subst k. simpl in Hk.
  apply (Hk f Hf eq_refl). now apply in_map.
Qed.

Lemma ingest_pdfs_keeps_other_rows_witness :
  select_content
    (db (fst (ingest_pdfs no_fault
       (Some (Directory
          [(lit "a.pdf"%string,
            Regular (Document [ExtractText (Some (lit "new"%string))]))]))
       5
       (mkWorld
          (Database
             (Some [mkRow (lit "a.pdf"%string) 1 (Some (lit "old"%string));
                    mkRow (lit "a.pdf"%string) 2 (Some (lit "gone"%string))]))
          []))))
    (lit "a.pdf"%string, 2%Z)
  = [Some (lit "gone"%string)].
Proof.
  rewrite (ingest_pdfs_keeps_other_rows no_fault
    (Some (Directory
       [(lit "a.pdf"%string,
         Regular (Document [ExtractText (Some (lit "new"%string))]))]))
    5
    (mkWorld
       (Database
          (Some [mkRow (lit "a.pdf"%string) 1 (Some (lit "old"%string));
                 mkRow (lit "a.pdf"%string) 2 (Some (lit "gone"%string))]))
       [])
    (lit "a.pdf"%string, 2%Z)).
  - reflexivity.
  - intros f [<- | []] _. simpl. intros [E | []]. discriminate E.
Defined.

Lemma length_flat_map_sum (A B : Type) (g : A -> list B) (xs : list A) :
  length (flat_map g xs) = list_sum (map (fun x => length (g x)) xs).
Proof.
  induction xs as [|x xs IH]; simpl; [reflexivity|].
  now rewrite length_app, IH.
Qed.

Lemma extract_pages_length_valid (f : node) :
  valid_pdf f = true -> length (fst (extract_pages f)) = page_count f.
Proof.
  unfold valid_pdf, extract_pages, page_count.
  destruct (PdfReader f) as [pages|]; [|discriminate].
  intros H. change 1%Z with (Z.of_nat 1).
  rewrite (extract_loop_valid pages 1 H). cbn [fst].
  rewrite length_combine, !length_map, length_seq. apply Nat.min_id.
Qed.

(** X14. A run that ends normally on an empty table, in a directory whose
    names are distinct, leaves exactly one row per extracted page, in the
    order of the listing and of the pages: as many rows as the listed files
    have pages. *)
Theorem ingest_pdfs_fresh_table (env : faults) (entries : list (str * node))
  (limit : Z) (w : world) :
  NoDup (map fst entries) ->
  stored_rows (db w) = [] ->
  let source_dir := Some (Directory entries) in
  let pdf_files := collect_pdf_files source_dir limit in
  let out := ingest_pdfs env source_dir limit w in
  snd out = Ok tt ->
  stored_rows (db (fst out)) = map bind_row (records_of pdf_files)
  /\ length (stored_rows (db (fst out)))
     = list_sum (map (fun f => page_count (snd f)) pdf_files).
Proof.
  intros Hnames Hempty source_dir pdf_files out Hok.
  assert (Hrows : stored_rows (db (fst out))
                  = map bind_row (records_of pdf_files)).
  { unfold out. rewrite (ingest_pdfs_ok_db env source_dir limit w Hok).
    cbn [stored_rows]. rewrite Hempty, upsert_all_closed. simpl.
    apply dedup_last_NoDup, records_of_keys_NoDup.
    now apply collect_names_NoDup. }
  split; [exact Hrows|].
  rewrite Hrows, length_map. unfold records_of.
  rewrite length_flat_map_sum. f_equal.
  apply map_ext_in. intros f Hf. unfold tagged. rewrite length_map.
  apply extract_pages_length_valid, extract_ok_valid.
  apply ingest_pdfs_ok_iff in Hok as (_ & Hall & _).
  rewrite forallb_forall in Hall. now apply Hall.
Qed.

Lemma ingest_pdfs_fresh_table_witness :
  NoDup (map fst
    [(lit "b.pdf"%string, Regular (Document [ExtractText None]));
     (lit "a.pdf"%string,
      Regular (Document [ExtractText None; ExtractText None]))])
  /\ stored_rows (db (mkWorld NoDatabase [])) = []
  /\ length
       (stored_rows
          (db (fst (ingest_pdfs no_fault
             (Some (Directory
                [(lit "b.pdf"%string, Regular (Document [ExtractText None]));
                 (lit "a.pdf"%string,
                  Regular (Document [ExtractText None; ExtractText None]))]))
             5 (mkWorld NoDatabase [])))))
     = 3.
Proof.
  assert (Hnd : NoDup (map fst
    [(lit "b.pdf"%string, Regular (Document [ExtractText None]));
     (lit "a.pdf"%string,
      Regular (Document [ExtractText None; ExtractText None]))])).
  { repeat constructor; simpl; intuition discriminate. }
  split; [exact Hnd|]. split; [reflexivity|].
  rewrite (proj2 (ingest_pdfs_fresh_table no_fault
    [(lit "b.pdf"%string, Regular (Document [ExtractText None]));
     (lit "a.pdf"%string,
      Regular (Document [ExtractText None; ExtractText None]))]
    5 (mkWorld NoDatabase []) Hnd eq_refl eq_refl)).
  reflexivity.
Defined.

Lemma records_of_no_pages (pdf_files : list path) :
  (forall f, In f pdf_files -> snd f = Regular (Document [])) ->
  records_of pdf_files = [] /\ forallb extract_ok pdf_files = true.
Proof.
  induction pdf_files as [|f rest IH]; intros H; [now split|].
  destruct IH as [IH1 IH2]; [intros g Hg; apply H; now right|].
  assert (Hf : snd f = Regular (Document [])) by (apply H; now left).
  unfold records_of in *. simpl. rewrite IH1, IH2.
  unfold tagged, extract_ok. rewrite Hf. now split.
Qed.

(** X15. When every listed file is a document without pages, the batch is
    empty and the run still goes through [store_pages_in_db]: it makes the
    listing, the extractions and one store call with no record, and changes
    no row whatever fails. It ends normally exactly when the connect,
    [CREATE TABLE], the BEGIN and the COMMIT all pass; once the connect and
    [CREATE TABLE] have passed the table exists, also when the run then
    raises. *)
Theorem ingest_pdfs_zero_pages (env : faults) (source_dir : option node)
  (limit : Z) (w : world) :
  collect_pdf_files source_dir limit <> [] ->
  (forall f, In f (collect_pdf_files source_dir limit) ->
     snd f = Regular (Document [])) ->
  let out := ingest_pdfs env source_dir limit w in
  new_calls w (fst out)
  = CallCollect limit
    :: extract_calls (collect_pdf_files source_dir limit) ++ [CallStore []]
  /\ stored_rows (db (fst out)) = stored_rows (db w)
  /\ (snd out = Ok tt <->
        env OpConnect = false /\ env OpCreateTable = false
        /\ env OpBegin = false /\ env OpCommit = false)
  /\ (env OpConnect = false -> env OpCreateTable = false ->
        db (fst out) = Database (Some (stored_rows (db w)))).
Proof.
  intros Hne Hpages out. unfold out.
  destruct (records_of_no_pages _ Hpages) as [Hrec Hall].
  rewrite ingest_pdfs_run.
  destruct (collect_pdf_files source_dir limit) as [|f rest] eqn:Hfiles;
    [congruence|].
  cbv iota. remember (f :: rest) as files eqn:Hshape. clear Hshape.
  rewrite Hall, Hrec. cbn [fst snd db].
  rewrite <- app_assoc, new_calls_app.
  split; [reflexivity|].
  rewrite store_run. unfold fault_free. cbn [length seq forallb andb].
  destruct (env OpConnect), (env OpCreateTable), (env OpBegin),
    (env OpCommit); cbn [fst snd negb andb stored_rows map upsert_all
                          fold_left];
    (split; [try reflexivity; now destruct (db w) as [|[t|]]|]);
    (split; [split; [try discriminate; auto | intros (? & ? & ? & ?);
                                               congruence]|]);
    intros; try discriminate; reflexivity.
Qed.

Lemma ingest_pdfs_zero_pages_witness :
  collect_pdf_files
    (Some (Directory [(lit "a.pdf"%string, Regular (Document []))])) 5 <> []
  /\ ingest_pdfs (fun op => match op with OpCommit => true | _ => false end)
       (Some (Directory [(lit "a.pdf"%string, Regular (Document []))])) 5
       (mkWorld NoDatabase [])
     = (mkWorld (Database (Some []))
          [CallCollect 5; CallExtract (lit "a.pdf"%string); CallStore []],
        Raise SqliteError)
  /\ db (fst (ingest_pdfs
                (fun op => match op with OpCommit => true | _ => false end)
                (Some (Directory
                   [(lit "a.pdf"%string, Regular (Document []))])) 5
                (mkWorld NoDatabase [])))
     = Database (Some (stored_rows (db (mkWorld NoDatabase [])))).
Proof.
  split; [discriminate|]. split; [reflexivity|].
  apply (ingest_pdfs_zero_pages
           (fun op => match op with OpCommit => true | _ => false end)
           (Some (Directory [(lit "a.pdf"%string, Regular (Document []))]))
           5 (mkWorld NoDatabase [])).
  - discriminate.
  - intros f [<- | []]. reflexivity.
  - reflexivity.
  - reflexivity.
Defined.

Lemma attempted_length (pdf_files : list path) :
  length (attempted pdf_files) <= length pdf_files.
Proof.
  induction pdf_files as [|f rest IH]; simpl; [lia|].
  destruct (extract_ok f); simpl; lia.
Qed.

Lemma attempted_In (pdf_files : list path) (f : path) :
  In f (attempted pdf_files) -> In f pdf_files.
Proof.
  induction pdf_files as [|g rest IH]; simpl; [tauto|].
  intros [H | H]; [now left|].
  destruct (extract_ok g); [right; now apply IH | destruct H].
Qed.

Lemma extract_calls_all_extract (pdf_files : list path) :
  filter is_extract (extract_calls pdf_files) = extract_calls pdf_files.
Proof.
  induction pdf_files as [|f rest IH]; simpl; [reflexivity|].
  now rewrite IH.
Qed.

Lemma extract_calls_In (pdf_files : list path) (n : str) :
  In (CallExtract n) (extract_calls pdf_files) ->
  In n (map name pdf_files).
Proof.
  unfold extract_calls. rewrite !in_map_iff.
  intros (f & E & Hf). injection E as <-. now exists f.
Qed.

(** X16. With a limit that is not negative, a run drains the generator of
    at most [limit] files, each of them a listed file: a file that is not
    among the first [limit] names is never opened. *)
Theorem ingest_pdfs_opens_at_most_limit (env : faults)
  (source_dir : option node) (limit : Z) (w : world) :
  (0 <= limit)%Z ->
  let made := new_calls w (fst (ingest_pdfs env source_dir limit w)) in
  length (filter is_extract made) <= Z.to_nat limit
  /\ forall n, In (CallExtract n) made ->
       In n (map name (collect_pdf_files source_dir limit)).
Proof.
  intros Hlimit made.
  assert (Hlen : length (collect_pdf_files source_dir limit)
                 <= Z.to_nat limit).
  { unfold collect_pdf_files. rewrite slice_to_nonneg by assumption.
    rewrite length_firstn. lia. }
  unfold made. rewrite ingest_pdfs_run.
  destruct (collect_pdf_files source_dir limit) as [|f rest] eqn:Hfiles.
  - cbn [fst]. rewrite new_calls_app. simpl. split; [lia|].
    intros n [E | []]. discriminate E.
  - cbv iota. remember (f :: rest) as files eqn:Hshape. clear Hshape.
    destruct (forallb extract_ok files); cbn [fst];
      rewrite <- app_assoc, new_calls_app;
      change ([CallCollect limit] ++ ?x) with (CallCollect limit :: x);
      cbn [filter is_extract].
    + rewrite filter_app, extract_calls_all_extract.
      cbn [filter is_extract]. rewrite app_nil_r.
      unfold extract_calls at 1. rewrite length_map.
      split; [exact Hlen|].
      intros n [E | Hn]; [discriminate E|].
      apply in_app_or in Hn as [Hn | [E | []]]; [|discriminate E].
      now apply extract_calls_In.
    + rewrite extract_calls_all_extract.
      unfold extract_calls at 1. rewrite length_map.
      pose proof (attempted_length files) as Hatt.
      split; [lia|].
      intros n [E | Hn]; [discriminate E|].
      apply extract_calls_In in Hn.
      apply in_map_iff in Hn as (g & <- & Hg).
      apply in_map. now apply attempted_In.
Qed.

Lemma ingest_pdfs_opens_at_most_limit_witness :
  (0 <= 1)%Z
  /\ length
       (filter is_extract
          (new_calls (mkWorld NoDatabase [])
             (fst (ingest_pdfs no_fault
                (Some (Directory
                   [(lit "a.pdf"%string, Regular (Document []));
                    (lit "b.pdf"%string, Regular Unparseable)]))
                1 (mkWorld NoDatabase [])))))
     <= Z.to_nat 1.
Proof.
  split; [lia|].
  exact (proj1 (ingest_pdfs_opens_at_most_limit no_fault
                  (Some (Directory
                     [(lit "a.pdf"%string, Regular (Document []));
                      (lit "b.pdf"%string, Regular Unparseable)]))
                  1 (mkWorld NoDatabase []) ltac:(lia))).
Defined.


(** X19. A run ends normally exactly when at least one file is listed,
    the generator of every listed file ends normally, and no statement of
    the store fails: not the connect, [CREATE TABLE], the BEGIN, the
    [INSERT OR REPLACE] of any record of the run, or the COMMIT. *)
Theorem ingest_pdfs_normal_end_iff (env : faults)
  (source_dir : option node) (limit : Z) (w : world) :
  let pdf_files := collect_pdf_files source_dir limit in
  snd (ingest_pdfs env source_dir limit w) = Ok tt
  <-> pdf_files <> []
      /\ (forall f, In f pdf_files -> snd (extract_pages (snd f)) = None)
      /\ env OpConnect = false
      /\ env OpCreateTable = false
      /\ env OpBegin = false
      /\ (forall i, i < length (records_of pdf_files) ->
            env (OpInsert i) = false)
      /\ env OpCommit = false.
Proof.
  intros pdf_files.
  rewrite ingest_pdfs_ok_iff. fold pdf_files.
  rewrite fault_free_iff, forallb_forall.
  assert (Hok : forall f : path,
            extract_ok f = true <-> snd (extract_pages (snd f)) = None).
  { intros f. unfold extract_ok.
    destruct (snd (extract_pages (snd f))); split; congruence. }
  split.
  - intros (Hne & Hall & Hff). split; [exact Hne|]. split; [|exact Hff].
    intros f Hf. now apply Hok, Hall.
  - intros (Hne & Hall & Hff). split; [exact Hne|]. split; [|exact Hff].
    intros f Hf. now apply Hok, Hall.
Qed.

(** X20. Storing a batch a second time changes nothing, for any batch,
    also one with repeated keys, and any table: the rows after the second
    call are the rows after the first, whether or not the second call
    raises. *)
Theorem store_pages_in_db_twice (env1 env2 : faults)
  (records : list record) (d : database) :
  fault_free env1 records = true ->
  stored_rows
    (fst (store_pages_in_db env2 records
            (fst (store_pages_in_db env1 records d))))
  = stored_rows (fst (store_pages_in_db env1 records d)).
Proof.
  intros H1. rewrite (store_rows env2).
  destruct (fault_free env2 records); [|reflexivity].
  rewrite (store_rows env1), H1. apply upsert_all_idem.
Qed.

Lemma store_pages_in_db_twice_witness :
  fault_free no_fault
    [(lit "a.pdf"%string, 1%Z, lit "x"%string);
     (lit "a.pdf"%string, 1%Z, lit "y"%string)] = true
  /\ stored_rows
       (fst (store_pages_in_db no_fault
               [(lit "a.pdf"%string, 1%Z, lit "x"%string);
                (lit "a.pdf"%string, 1%Z, lit "y"%string)]
               (fst (store_pages_in_db no_fault
                       [(lit "a.pdf"%string, 1%Z, lit "x"%string);
                        (lit "a.pdf"%string, 1%Z, lit "y"%string)]
                       NoDatabase))))
     = stored_rows
         (fst (store_pages_in_db no_fault
                 [(lit "a.pdf"%string, 1%Z, lit "x"%string);
                  (lit "a.pdf"%string, 1%Z, lit "y"%string)]
                 NoDatabase)).
Proof.
  split; [reflexivity|].
  exact (store_pages_in_db_twice no_fault no_fault
           [(lit "a.pdf"%string, 1%Z, lit "x"%string);
            (lit "a.pdf"%string, 1%Z, lit "y"%string)]
           NoDatabase eq_refl).
Defined.

Lemma filter_length_split (A : Type) (keep : A -> bool) (xs : list A) :
  length xs
  = length (filter keep xs) + length (filter (fun x => negb (keep x)) xs).
Proof.
  induction xs as [|x xs IH]; simpl; [reflexivity|].
  destruct (keep x); simpl; lia.
Qed.

Lemma insert_or_replace_length (r : row) (t : table) :
  unique_keys t ->
  length t <= length (insert_or_replace r t) <= S (length t).
Proof.
  intros Huniq. unfold insert_or_replace.
  rewrite length_app. simpl.
  pose proof (filter_length_split row
                (fun x => key_eqb (row_key x) (row_key r)) t) as Hsplit.
  pose proof (rows_with_at_most_one (row_key r) t Huniq) as Hone.
  unfold rows_with in Hone. lia.
Qed.

Lemma upsert_all_length (rows : list row) (t : table) :
  unique_keys t ->
  length t <= length (upsert_all rows t) <= length t + length rows.
Proof.
  revert t. induction rows as [|r rows IH]; intros t Huniq.
  - simpl. lia.
  - change (upsert_all (r :: rows) t)
      with (upsert_all rows (insert_or_replace r t)).
    pose proof (insert_or_replace_length r t Huniq) as Hstep.
    pose proof (IH (insert_or_replace r t)
                  (insert_or_replace_unique r t Huniq)) as Hrest.
    simpl length. lia.
Qed.

(** X21. On a table whose keys are unique, a call never makes the table
    shorter and adds at most one row per record, whether it ends normally
    or raises. *)
Theorem store_pages_in_db_row_count (env : faults) (records : list record)
  (d : database) :
  unique_keys (stored_rows d) ->
  length (stored_rows d)
  <= length (stored_rows (fst (store_pages_in_db env records d)))
  <= length (stored_rows d) + length records.
Proof.
  intros Huniq. rewrite store_rows.
  destruct (fault_free env records); [|lia].
  pose proof (upsert_all_length (map bind_row records) (stored_rows d) Huniq)
    as H.
  rewrite length_map in H. exact H.
Qed.

Lemma store_pages_in_db_row_count_witness :
  unique_keys
    (stored_rows (Database (Some [mkRow (lit "a.pdf"%string) 1 None])))
  /\ length
       (stored_rows (Database (Some [mkRow (lit "a.pdf"%string) 1 None])))
     <= length
          (stored_rows
             (fst (store_pages_in_db no_fault
                     [(lit "a.pdf"%string, 1%Z, @nil N);
                      (lit "a.pdf"%string, 2%Z, @nil N)]
                     (Database
                        (Some [mkRow (lit "a.pdf"%string) 1 None])))))
     <= length
          (stored_rows (Database (Some [mkRow (lit "a.pdf"%string) 1 None])))
        + length [(lit "a.pdf"%string, 1%Z, @nil N);
                  (lit "a.pdf"%string, 2%Z, @nil N)].
Proof.
  assert (Hu : unique_keys
                 (stored_rows
                    (Database (Some [mkRow (lit "a.pdf"%string) 1 None])))).
  { repeat constructor. intros []. }
  split; [exact Hu|].
  exact (store_pages_in_db_row_count no_fault
           [(lit "a.pdf"%string, 1%Z, @nil N); (lit "a.pdf"%string, 2%Z, @nil N)]
           (Database (Some [mkRow (lit "a.pdf"%string) 1 None])) Hu).
Defined.

(** A failing COMMIT makes the call raise for an empty batch too; the table
    it created stays. *)
Example scenario_empty_batch_failed_commit :
  store_pages_in_db
    (fun op => match op with OpCommit => true | _ => false end)
    [] NoDatabase
  = (Database (Some []), Raise SqliteError).
Proof. reflexivity. Qed.
